(** * The worklet factory of the Reanimated Babel plugin

    A shallow embedding of
    [packages/react-native-reanimated/plugin/src/workletFactory.ts]:
    the identity hasher [hash], the naming resolver [makeWorkletName],
    the directive stripper [removeWorkletDirective], the closure analyzer
    [makeArrayFromCapturedBindings] and the wrapper emitter
    [makeWorkletFactory], followed by the properties of each.

    Part I holds the definitions, Part II the lemmas and theorems. *)

From Stdlib Require Import ZArith NArith String Ascii Bool Lia.
From Stdlib Require Import DecimalN.
From Stdlib Require Import List.
Import ListNotations.

Set Implicit Arguments.
Set Warnings "-register-all".

(* ################################################################## *)
(** * Part I: the program *)
(* ################################################################## *)

(* ================================================================== *)
(** ** JavaScript values *)
(* ================================================================== *)

(** A JavaScript string is a sequence of UTF-16 code units;
    [charCodeAt] reads one of them. *)
Definition js_string : Type := list N.

(** The code units of an ASCII literal. *)
Definition js (s : string) : js_string :=
  map N_of_ascii (list_ascii_of_string s).

(** [a === b] on strings. *)
Fixpoint js_eqb (a b : js_string) : bool :=
  match a, b with
  | [], [] => true
  | x :: a', y :: b' => N.eqb x y && js_eqb a' b'
  | _, _ => false
  end.

(** A string in a condition: the empty string is falsy. *)
Definition truthy (s : js_string) : bool :=
  match s with [] => false | _ => true end.

(** The decimal digits a template literal prints for a non-negative
    integer (below 10^21, where JavaScript switches to exponents). *)
Fixpoint digits (d : Decimal.uint) : js_string :=
  match d with
  | Decimal.Nil => []
  | Decimal.D0 d => 48%N :: digits d
  | Decimal.D1 d => 49%N :: digits d
  | Decimal.D2 d => 50%N :: digits d
  | Decimal.D3 d => 51%N :: digits d
  | Decimal.D4 d => 52%N :: digits d
  | Decimal.D5 d => 53%N :: digits d
  | Decimal.D6 d => 54%N :: digits d
  | Decimal.D7 d => 55%N :: digits d
  | Decimal.D8 d => 56%N :: digits d
  | Decimal.D9 d => 57%N :: digits d
  end.

Definition Number_toString (n : N) : js_string := digits (N.to_uint n).

Definition isDigit (c : N) : bool := (48 <=? c)%N && (c <=? 57)%N.

(** An assertion of the pass either holds or aborts it with a message. *)
Inductive Result (A : Type) : Type :=
| Ok (a : A)
| AssertionError (message : string).
Arguments Ok {A} a.
Arguments AssertionError {A} message.

Definition bind {A B : Type} (r : Result A) (k : A -> Result B) : Result B :=
  match r with
  | Ok a => k a
  | AssertionError m => AssertionError m
  end.

Definition assert (condition : bool) (message : string) : Result unit :=
  if condition then Ok tt else AssertionError message.

Notation "x <- r ;; k" := (bind r (fun x => k))
  (at level 61, r at next level, right associativity).
Notation "r ;;; k" := (bind r (fun _ => k))
  (at level 61, right associativity).

(** A JavaScript [Map] keeps its keys in insertion order; [set] on a key
    already present replaces the value and keeps the key's position. *)
Definition Map (V : Type) : Type := list (js_string * V).

Fixpoint Map_set {V : Type} (key : js_string) (value : V) (m : Map V) : Map V :=
  match m with
  | [] => [(key, value)]
  | (k, v) :: m' =>
      if js_eqb k key then (k, value) :: m' else (k, v) :: Map_set key value m'
  end.

Fixpoint Map_get {V : Type} (key : js_string) (m : Map V) : option V :=
  match m with
  | [] => None
  | (k, v) :: m' => if js_eqb k key then Some v else Map_get key m'
  end.

Definition Map_keys {V : Type} (m : Map V) : list js_string := map fst m.
Definition Map_values {V : Type} (m : Map V) : list V := map snd m.

(** What [set] does to the list of keys: a key joins the end unless it
    is there already. *)
Definition add_key (k : js_string) (keys : list js_string) : list js_string :=
  if existsb (fun k' => js_eqb k' k) keys then keys else keys ++ [k].

(* ================================================================== *)
(** ** Identity hasher *)
(* ================================================================== *)

(** The integer conversions of the bitwise operators.  Every number the
    loop handles is an integer below 2^53 in magnitude (lemma
    [hash_loop_exact]), so the double arithmetic of the source is exact
    and is written on [Z]. *)
Definition ToInt32 (z : Z) : Z := ((z + 2 ^ 31) mod 2 ^ 32 - 2 ^ 31)%Z.
Definition ToUint32 (z : Z) : Z := (z mod 2 ^ 32)%Z.

(** [a ^ b] *)
Definition bitxor (a b : Z) : Z := Z.lxor (ToInt32 a) (ToInt32 b).

(** [a >>> 0] *)
Definition ushr0 (a : Z) : Z := ToUint32 a.

(** [str.charCodeAt(i)], for [i] inside the string. *)
Definition charCodeAt (str : js_string) (i : nat) : Z :=
  Z.of_N (nth i str 0%N).

(** [while (i--) { ... }]: [i] is the counter before the test, the body
    runs with [i - 1]. *)
Fixpoint hash_loop (str : js_string) (i : nat) (hash1 hash2 : Z) : Z * Z :=
  match i with
  | O => (hash1, hash2)
  | S i' =>
      let char := charCodeAt str i' in
      hash_loop str i' (bitxor (hash1 * 33) char) (bitxor (hash2 * 33) char)
  end.

Definition hash (str : js_string) : Z :=
  let '(hash1, hash2) := hash_loop str (List.length str) 5381%Z 52711%Z in
  (ushr0 hash1 * 4096 + ushr0 hash2)%Z.

(** One round of the loop on one accumulator. *)
Definition round (h : Z) (c : N) : Z := bitxor (h * 33) (Z.of_N c).

(** The algorithm in the words of the specification: two accumulators, a
    scan from the last character to the first, each step
    [(accumulator * 33) xor charCode] truncated to 32 bits by [trunc],
    both masked to the unsigned range at the end. *)
Definition spec_step (trunc : Z -> Z) (acc : Z) (c : N) : Z :=
  trunc (Z.lxor (acc * 33) (Z.of_N c)).

Definition spec_scan (trunc : Z -> Z) (seed : Z) (str : js_string) : Z :=
  fold_left (spec_step trunc) (rev str) seed.

Definition spec_hash (trunc : Z -> Z) (str : js_string) : Z :=
  let hash1 := spec_scan trunc 5381%Z str in
  let hash2 := spec_scan trunc 52711%Z str in
  ((hash1 mod 2 ^ 32) * 4096 + (hash2 mod 2 ^ 32))%Z.

(* ================================================================== *)
(** ** Syntax trees *)
(* ================================================================== *)

Record Position : Type := { line : N; column : N }.
Record SourceLocation : Type := { loc_start : Position; loc_end : Position }.

Record Identifier : Type := { name : js_string; loc : option SourceLocation }.

(** [node.loc = loc] *)
Definition set_loc (node : Identifier) (l : option SourceLocation) : Identifier :=
  {| name := name node; loc := l |}.

(** The node types [isFunction] accepts.  The first four are the
    [WorkletizableFunction]s. *)
Inductive FunctionType : Type :=
| FunctionDeclaration
| FunctionExpression
| ArrowFunctionExpression
| ObjectMethod
| ClassMethod.

(** A [Directive] with the [value] of its [DirectiveLiteral]. *)
Record Directive : Type := { directive_value : js_string }.

(** The tree the parser hands to the plugin.  The pass looks inside
    identifiers, functions and blocks (the holders of directives); any
    other node is its type and its children. *)
Inductive Node : Type :=
| IdentifierNode (id : Identifier)
| FunctionNode (type : FunctionType) (id : option Identifier)
    (key : option Node) (params : list Node) (body : Node)
    (generator async : bool)
| BlockStatement (body : list Node) (directives : list Directive)
| OtherNode (type : string) (children : list Node).

(** The function being workletized, [fun.node]. *)
Record WorkletizableFunction : Type := {
  f_type : FunctionType;
  f_id : option Identifier;
  f_key : option Node;
  f_params : list Node;
  f_body : Node;
  f_generator : bool;
  f_async : bool
}.

Definition isBlockStatement (n : Node) : bool :=
  match n with BlockStatement _ _ => true | _ => false end.
Definition isFunction (n : Node) : bool :=
  match n with FunctionNode _ _ _ _ _ _ _ => true | _ => false end.
Definition isObjectMethod (f : WorkletizableFunction) : bool :=
  match f_type f with ObjectMethod => true | _ => false end.
Definition isFunctionDeclaration (f : WorkletizableFunction) : bool :=
  match f_type f with FunctionDeclaration => true | _ => false end.
Definition isFunctionExpression (f : WorkletizableFunction) : bool :=
  match f_type f with FunctionExpression => true | _ => false end.

Definition node_of (f : WorkletizableFunction) : Node :=
  FunctionNode (f_type f) (f_id f) (f_key f) (f_params f) (f_body f)
    (f_generator f) (f_async f).

(** The nodes the wrapper emitter builds, named after the builders of
    [@babel/types] that the source imports.  [sourceBody] and
    [sourceNode] hold parts of the original function. *)
Inductive Expression : Type :=
| identifierNode (id : Identifier)
| stringLiteral (value : js_string)
| numericLiteral (value : Z)
| memberExpression (object property : Expression) (computed : bool)
| assignmentExpression (operator : string) (left right : Expression)
| objectExpression (properties : list Property)
| arrayExpression (elements : list Expression)
| newExpression (callee : Expression) (arguments : list Expression)
| functionExpression (id : option Identifier) (params : list Node)
    (body : Body) (generator async : bool)
| sourceNode (n : WorkletizableFunction)
with Property : Type :=
| objectProperty (key value : Expression) (computed shorthand : bool)
with Body : Type :=
| sourceBody (n : Node)
| blockStatement (body : list Statement)
with Statement : Type :=
| variableDeclaration (kind : string) (declarations : list Declarator)
| expressionStatement (expression : Expression)
| returnStatement (argument : Expression)
with Declarator : Type :=
| variableDeclarator (id : Identifier) (init : Expression).

(** [identifier(name)] *)
Definition identifier (n : js_string) : Identifier := {| name := n; loc := None |}.

(* ================================================================== *)
(** ** Directive stripper *)
(* ================================================================== *)

(** The path of a [DirectiveLiteral] during [fun.traverse]: its value
    and the nodes above its directive, nearest first; the last one is
    the root of the traversal, [fun.node]. *)
Record DirectiveLiteralPath : Type := {
  literal_value : js_string;
  literal_ancestors : list Node
}.

(** [path.getFunctionParent()]: the nearest function above the path,
    given as the chain from that function up to the root. *)
Fixpoint getFunctionParent (ancestors : list Node) : option (list Node) :=
  match ancestors with
  | [] => None
  | n :: up => if isFunction n then Some ancestors else getFunctionParent up
  end.

(** [p === fun] for a path [p] above the visited node: two such paths
    are the same path when their chains to the root have one length,
    and the chain of [fun], the root, has length 1. *)
Definition is_fun (p : option (list Node)) : bool :=
  match p with
  | Some chain => Nat.eqb (List.length chain) 1
  | None => false
  end.

Section Traverse.
(** The [DirectiveLiteral] visitor; it answers whether it removed
    [path.parentPath], the directive. *)
Variable DirectiveLiteral : DirectiveLiteralPath -> bool.

Fixpoint traverse (ancestors : list Node) (n : Node) : Node :=
  match n with
  | IdentifierNode _ => n
  | FunctionNode t i key params body g a =>
      let up := n :: ancestors in
      FunctionNode t i
        (match key with Some k => Some (traverse up k) | None => None end)
        (map (traverse up) params) (traverse up body) g a
  | BlockStatement body directives =>
      let up := n :: ancestors in
      BlockStatement (map (traverse up) body)
        (filter (fun d => negb (DirectiveLiteral
                   {| literal_value := directive_value d;
                      literal_ancestors := up |})) directives)
  | OtherNode t children => OtherNode t (map (traverse (n :: ancestors)) children)
  end.
End Traverse.

Definition worklet_directive_visitor (path : DirectiveLiteralPath) : bool :=
  js_eqb (literal_value path) (js "worklet")
  && is_fun (getFunctionParent (literal_ancestors path)).

(** [fun.traverse] visits what lies below [fun.node]: the key, the
    parameters and the body. *)
Definition removeWorkletDirective (fun_ : WorkletizableFunction)
  : WorkletizableFunction :=
  let root := [node_of fun_] in
  let visit := traverse worklet_directive_visitor root in
  {| f_type := f_type fun_;
     f_id := f_id fun_;
     f_key := match f_key fun_ with Some k => Some (visit k) | None => None end;
     f_params := map visit (f_params fun_);
     f_body := visit (f_body fun_);
     f_generator := f_generator fun_;
     f_async := f_async fun_ |}.

(** The stripper in the words of the specification: inside the function
    and outside every nested function, a block loses the directives
    whose literal is ['worklet']; a nested function is left as it is. *)
Definition is_worklet_directive (d : Directive) : bool :=
  js_eqb (directive_value d) (js "worklet").

Fixpoint strip_own (n : Node) : Node :=
  match n with
  | IdentifierNode _ => n
  | FunctionNode _ _ _ _ _ _ _ => n
  | BlockStatement body directives =>
      BlockStatement (map strip_own body)
        (filter (fun d => negb (is_worklet_directive d)) directives)
  | OtherNode t children => OtherNode t (map strip_own children)
  end.

(** The part of a node the stripper is to leave alone: the node with
    the directive lists it holds for the function it lies in blanked. *)
Fixpoint without_own_directives (n : Node) : Node :=
  match n with
  | IdentifierNode _ => n
  | FunctionNode _ _ _ _ _ _ _ => n
  | BlockStatement body _ => BlockStatement (map without_own_directives body) []
  | OtherNode t children => OtherNode t (map without_own_directives children)
  end.

(** The stripper's result as the specification words it, on the three
    places [fun.traverse] reaches. *)
Definition strip_own_function (fun_ : WorkletizableFunction)
  : WorkletizableFunction :=
  {| f_type := f_type fun_;
     f_id := f_id fun_;
     f_key := option_map strip_own (f_key fun_);
     f_params := map strip_own (f_params fun_);
     f_body := strip_own (f_body fun_);
     f_generator := f_generator fun_;
     f_async := f_async fun_ |}.

(** The directives a node holds for the function it lies in, nested
    functions skipped. *)
Fixpoint own_directives (n : Node) : list Directive :=
  match n with
  | IdentifierNode _ => []
  | FunctionNode _ _ _ _ _ _ _ => []
  | BlockStatement body directives =>
      directives ++ flat_map own_directives body
  | OtherNode _ children => flat_map own_directives children
  end.

(** The nested functions of a node, outermost ones only. *)
Fixpoint nested_functions (n : Node) : list Node :=
  match n with
  | IdentifierNode _ => []
  | FunctionNode _ _ _ _ _ _ _ => [n]
  | BlockStatement body _ => flat_map nested_functions body
  | OtherNode _ children => flat_map nested_functions children
  end.

(* ================================================================== *)
(** ** Closure analyzer *)
(* ================================================================== *)

(** What the [Identifier] visitor reads of [path.parent]:
    [parentNode.property === path.node] and [parentNode.computed] of a
    member expression, [path.node === parentNode.value] and the flags of
    an object property. *)
Inductive ParentNode : Type :=
| MemberExpressionParent (node_is_property computed : bool)
| ObjectPropertyParent (node_is_value computed shorthand : bool)
| OtherParent.

(** A scope of the chain [path.scope], [path.scope.parent], ...: the
    names of its [bindings]. *)
Definition Scope : Type := list js_string.

Record IdentifierPath : Type := {
  path_node : Identifier;
  isReferencedIdentifier : bool;
  path_parent : ParentNode;
  (** [isObjectExpression(path.parentPath.parent)] *)
  grandparent_isObjectExpression : bool;
  (** innermost scope first *)
  path_scope : list Scope
}.

(** [traverse(ast, { Identifier(path) { ... } })] runs the visitor on
    the identifier paths of the tree in traversal order. *)
Record BabelFile : Type := { file_identifiers : list IdentifierPath }.

Record NodePath : Type := {
  node : WorkletizableFunction;
  (** the identifier paths [fun.traverse] visits, in order *)
  fun_identifiers : list IdentifierPath;
  (** [fun.parentPath.isProgram()] *)
  parentPath_isProgram : bool;
  (** [fun.findParent(path => path.parentPath?.isProgram())] is not null *)
  has_topLevel_ancestor : bool
}.

Definition has_binding (name_ : js_string) (s : Scope) : bool :=
  existsb (js_eqb name_) s.

(** [while (currentScope != null) { if (currentScope.bindings[name] !=
    null) return; currentScope = currentScope.parent }]: whether the
    loop returns. *)
Fixpoint scope_chain_binds (name_ : js_string) (currentScope : list Scope) : bool :=
  match currentScope with
  | [] => false
  | s :: parent => if has_binding name_ s then true else scope_chain_binds name_ parent
  end.

Definition is_own_name (fun_ : WorkletizableFunction) (name_ : js_string) : bool :=
  match f_id fun_ with
  | Some id => js_eqb (name id) name_
  | None => false
  end.

Definition is_member_property (parentNode : ParentNode) : bool :=
  match parentNode with
  | MemberExpressionParent node_is_property computed =>
      node_is_property && negb computed
  | _ => false
  end.

Definition is_object_property_non_value (path : IdentifierPath) : bool :=
  match path_parent path with
  | ObjectPropertyParent node_is_value _ _ =>
      grandparent_isObjectExpression path && negb node_is_value
  | _ => false
  end.

(** The two maps of [makeArrayFromCapturedBindings]. *)
Record Captures : Type := {
  closure : Map Identifier;
  isLocationAssignedMap : Map bool
}.

(** Whether the first visitor reaches [closure.set]. *)
Definition captures (globals : js_string -> bool) (fun_ : WorkletizableFunction)
    (path : IdentifierPath) : bool :=
  let name_ := name (path_node path) in
  if negb (isReferencedIdentifier path) then false
  else if globals name_ then false
  else if is_own_name fun_ name_ then false
  else if is_member_property (path_parent path) then false
  else if is_object_property_non_value path then false
  else if scope_chain_binds name_ (path_scope path) then false
  else true.

(** The visitor of the first traversal. *)
Definition capture_visitor (globals : js_string -> bool)
    (fun_ : WorkletizableFunction) (st : Captures) (path : IdentifierPath)
  : Captures :=
  if captures globals fun_ path then
    let name_ := name (path_node path) in
    {| closure := Map_set name_ (path_node path) (closure st);
       isLocationAssignedMap := Map_set name_ false (isLocationAssignedMap st) |}
  else st.

(** [isLocationAssignedMap.get(name)] in a condition: a missing entry
    reads [undefined], which is falsy. *)
Definition location_assigned (st : Captures) (name_ : js_string) : bool :=
  match Map_get name_ (isLocationAssignedMap st) with
  | Some b => b
  | None => false
  end.

(** The visitor of the second traversal. *)
Definition location_visitor (st : Captures) (path : IdentifierPath) : Captures :=
  if negb (isReferencedIdentifier path) then st
  else
    let name_ := name (path_node path) in
    match Map_get name_ (closure st) with
    | None => st
    | Some node_ =>
        if location_assigned st name_ then st
        else
          {| closure := Map_set name_ (set_loc node_ (loc (path_node path)))
                          (closure st);
             isLocationAssignedMap :=
               Map_set name_ true (isLocationAssignedMap st) |}
    end.

Definition no_captures : Captures :=
  {| closure := []; isLocationAssignedMap := [] |}.

Definition first_traversal (globals : js_string -> bool)
    (fun_ : WorkletizableFunction) (paths : list IdentifierPath) : Captures :=
  fold_left (capture_visitor globals fun_) paths no_captures.

Definition second_traversal (st : Captures) (paths : list IdentifierPath)
  : Captures :=
  fold_left location_visitor paths st.

Definition makeArrayFromCapturedBindings (globals : js_string -> bool)
    (ast : BabelFile) (fun_ : NodePath) : list Identifier :=
  let st := first_traversal globals (node fun_) (file_identifiers ast) in
  let st := second_traversal st (fun_identifiers fun_) in
  Map_values (closure st).

Definition path_name (path : IdentifierPath) : js_string :=
  name (path_node path).

(** First-discovery order: each name once, at its first occurrence. *)
Fixpoint first_occurrences (names : list js_string) : list js_string :=
  match names with
  | [] => []
  | n :: rest =>
      n :: filter (fun m => negb (js_eqb n m)) (first_occurrences rest)
  end.

(** The last path of a list that carries a name. *)
Fixpoint last_named (name_ : js_string) (paths : list IdentifierPath)
  : option IdentifierPath :=
  match paths with
  | [] => None
  | p :: rest =>
      match last_named name_ rest with
      | Some q => Some q
      | None => if js_eqb (path_name p) name_ then Some p else None
      end
  end.

(** The first referenced identifier of a traversal that carries a name. *)
Definition first_reference (name_ : js_string) (paths : list IdentifierPath)
  : option IdentifierPath :=
  find (fun p => isReferencedIdentifier p && js_eqb (path_name p) name_) paths.

(** What the second traversal is to do with the node stored for a name:
    nothing when the location is already assigned or the original tree
    has no reference of that name, otherwise give it the location of
    the first such reference. *)
Definition relocate (st : Captures) (paths : list IdentifierPath)
    (name_ : js_string) (node_ : Identifier) : Identifier :=
  if location_assigned st name_ then node_
  else match first_reference name_ paths with
       | Some p => set_loc node_ (loc (path_node p))
       | None => node_
       end.

Definition is_some {A : Type} (o : option A) : bool :=
  match o with Some _ => true | None => false end.

(** Sample inputs: a location, a free reference outside any member
    access or object property, an arrow function without a name. *)
Definition loc_at (l c : N) : option SourceLocation :=
  Some {| loc_start := {| line := l; column := c |};
          loc_end := {| line := l; column := c + 1 |} |}.

Definition free_reference (n : string) (l c : N) : IdentifierPath :=
  {| path_node := {| name := js n; loc := loc_at l c |};
     isReferencedIdentifier := true;
     path_parent := OtherParent;
     grandparent_isObjectExpression := false;
     path_scope := [[]; []] |}.

Definition no_globals : js_string -> bool := fun _ => false.

Definition arrow_function (body : Node) : WorkletizableFunction :=
  {| f_type := ArrowFunctionExpression;
     f_id := None;
     f_key := None;
     f_params := [];
     f_body := body;
     f_generator := false;
     f_async := false |}.

Definition path_of (f : WorkletizableFunction) (ids : list IdentifierPath)
  : NodePath :=
  {| node := f;
     fun_identifiers := ids;
     parentPath_isProgram := true;
     has_topLevel_ancestor := false |}.

(** Every entry of the capture set is stored under the name of its
    node. *)
Definition keyed_by_name (m : Map Identifier) : Prop :=
  Forall (fun entry => name (snd entry) = fst entry) m.

(** [k] in [() => { 'worklet'; return { [k]: 1 }; }]: the computed key
    of an object property, a referenced identifier that no scope
    declares. *)
Definition computed_key_reference : IdentifierPath :=
  {| path_node := {| name := js "k"; loc := loc_at 1 12 |};
     isReferencedIdentifier := true;
     path_parent := ObjectPropertyParent false true false;
     grandparent_isObjectExpression := true;
     path_scope := [[]; []] |}.

(** The capture rule in the words of the specification: a reference is
    registered unless its name is an allow-listed global, the function's
    own name, the non-computed property name of a member access, a
    shorthand key of an object literal, or declared on the scope chain. *)
Definition is_shorthand_key (path : IdentifierPath) : bool :=
  match path_parent path with
  | ObjectPropertyParent node_is_value _ shorthand =>
      grandparent_isObjectExpression path && shorthand && negb node_is_value
  | _ => false
  end.

Definition spec_captures (globals : js_string -> bool)
    (fun_ : WorkletizableFunction) (path : IdentifierPath) : bool :=
  let name_ := path_name path in
  negb (globals name_)
  && negb (is_own_name fun_ name_)
  && negb (is_member_property (path_parent path))
  && negb (is_shorthand_key path)
  && negb (scope_chain_binds name_ (path_scope path)).

(* ================================================================== *)
(** ** Plugin state and host *)
(* ================================================================== *)

(** [state]: [state.file.opts.filename], [state.cwd], the two options
    of [state.opts] the factory reads, and the per-file counter. *)
Record ReanimatedPluginPass : Type := {
  filename : option js_string;
  cwd : js_string;
  relativeSourceLocation : bool;
  omitNativeOnlyData : bool;
  workletNumber : N
}.

(** [n + 1] on the double that holds a non-negative integer [n].  Below
    2^53 the sum is exact.  From 2^53 on a double holds even integers
    only: up to 2^54 the sum lies halfway between [n] and [n + 2] and
    rounds to the one whose significand is even, so that 2^53 stays
    2^53; from 2^54 on it rounds back to [n].  (Integers a double cannot
    hold do not occur as [n].) *)
Definition increment_double (n : N) : N :=
  if (n <? 2 ^ 53)%N then (n + 1)%N
  else if (n <? 2 ^ 54)%N then (if N.even (n / 2) then n else n + 2)%N
  else n.

(** [state.workletNumber++] leaves the other fields as they are. *)
Definition increment_workletNumber (state : ReanimatedPluginPass)
  : ReanimatedPluginPass :=
  {| filename := filename state;
     cwd := cwd state;
     relativeSourceLocation := relativeSourceLocation state;
     omitNativeOnlyData := omitNativeOnlyData state;
     workletNumber := increment_double (workletNumber state) |}.

(** The result of [transformSync]. *)
Record BabelFileResult : Type := {
  ast : option BabelFile;
  map_ : option js_string
}.

(** What the factory takes from outside this file: the allow-list of
    [./globals], [isRelease] of [./utils], the environment variable and
    the package version, [basename] and [relative] of Node's [path],
    [String.prototype.replace], [toIdentifier] of [@babel/types],
    [generate] and [transformSync] of Babel, [buildWorkletString] of
    [./workletStringCode] and [generateUidIdentifier] of the program's
    scope. *)
Record Host : Type := {
  globals_has : js_string -> bool;
  isRelease : bool;
  REANIMATED_JEST_SHOULD_MOCK_VERSION : option js_string;
  REAL_VERSION : js_string;
  basename : js_string -> js_string;
  relative : js_string -> js_string -> js_string;
  String_replace : js_string -> js_string -> js_string -> js_string;
  toIdentifier : js_string -> js_string;
  generate : WorkletizableFunction -> js_string -> js_string * js_string;
  transformSync : js_string -> js_string -> js_string -> option BabelFileResult;
  buildWorkletString :
    BabelFile -> ReanimatedPluginPass -> list Identifier -> js_string ->
    option js_string -> js_string * option js_string;
  generateUidIdentifier : js_string -> Identifier
}.

Definition MOCK_VERSION : js_string := js "x.y.z".

Definition shouldMockVersion (host : Host) : bool :=
  match REANIMATED_JEST_SHOULD_MOCK_VERSION host with
  | Some v => js_eqb v (js "1")
  | None => false
  end.

(* ================================================================== *)
(** ** Naming resolver *)
(* ================================================================== *)

(** [s.split(sep)] for a separator of one code unit. *)
Fixpoint split (sep : N) (s : js_string) : list js_string :=
  match s with
  | [] => [[]]
  | c :: s' =>
      if N.eqb c sep then [] :: split sep s'
      else match split sep s' with
           | [] => [[c]]
           | segment :: rest => (c :: segment) :: rest
           end
  end.

(** [l.indexOf(x)], [None] for [-1]. *)
Fixpoint indexOf (x : js_string) (l : list js_string) : option nat :=
  match l with
  | [] => None
  | y :: l' =>
      if js_eqb y x then Some O
      else match indexOf x l' with Some i => Some (S i) | None => None end
  end.

(** An array element inside a template literal; an index past the end
    reads [undefined]. *)
Definition element_to_string (l : list js_string) (i : nat) : js_string :=
  match nth_error l i with
  | Some s => s
  | None => js "undefined"
  end.

Definition slash : N := 47%N.

Definition worklet_source (host : Host) (state : ReanimatedPluginPass)
  : js_string :=
  match filename state with
  | Some filepath =>
      if truthy filepath then
        let source := basename host filepath in
        let splitFilepath := split slash filepath in
        match indexOf (js "node_modules") splitFilepath with
        | Some nodeModulesIndex =>
            let libraryName :=
              element_to_string splitFilepath (nodeModulesIndex + 1) in
            libraryName ++ js "_" ++ source
        | None => source
        end
      else js "unknownFile"
  | None => js "unknownFile"
  end.

(** [isIdentifier(fun.node.key)], with the key when it holds. *)
Definition key_identifier (fun_ : WorkletizableFunction) : option Identifier :=
  match f_key fun_ with
  | Some (IdentifierNode key) => Some key
  | _ => None
  end.

Definition makeWorkletName (host : Host) (fun_ : WorkletizableFunction)
    (state : ReanimatedPluginPass) : js_string * ReanimatedPluginPass :=
  let source := worklet_source host state in
  let suffix := source ++ Number_toString (workletNumber state) in
  let state := increment_workletNumber state in
  match (if isObjectMethod fun_ then key_identifier fun_ else None) with
  | Some key => (toIdentifier host (name key ++ js "_" ++ suffix), state)
  | None =>
  match (if isFunctionDeclaration fun_ then f_id fun_ else None) with
  | Some id => (toIdentifier host (name id ++ js "_" ++ suffix), state)
  | None =>
  match (if isFunctionExpression fun_ then f_id fun_ else None) with
  | Some id => (toIdentifier host (name id ++ js "_" ++ suffix), state)
  | None =>
      (* Fallback for ArrowFunctionExpression and unnamed FunctionExpression. *)
      (toIdentifier host suffix, state)
  end end end.

(** The name the function carries into the resolved one, and the string
    handed to [toIdentifier] (lemma [makeWorkletName_raw]). *)
Definition own_name (fun_ : WorkletizableFunction) : option js_string :=
  match f_type fun_ with
  | ObjectMethod => option_map name (key_identifier fun_)
  | FunctionDeclaration | FunctionExpression => option_map name (f_id fun_)
  | _ => None
  end.

Definition raw_worklet_name (host : Host) (fun_ : WorkletizableFunction)
    (state : ReanimatedPluginPass) : js_string :=
  let suffix :=
    worklet_source host state ++ Number_toString (workletNumber state) in
  match own_name fun_ with
  | Some n => n ++ js "_" ++ suffix
  | None => suffix
  end.

(** One compilation unit: the worklets of a file are named one after
    the other, each call handed the state the call before left. *)
Fixpoint name_worklets (host : Host) (funs : list WorkletizableFunction)
    (state : ReanimatedPluginPass) : list js_string * ReanimatedPluginPass :=
  match funs with
  | [] => ([], state)
  | fun_ :: rest =>
      let '(functionName, state) := makeWorkletName host fun_ state in
      let '(names, state) := name_worklets host rest state in
      (functionName :: names, state)
  end.

(** The strings those calls hand to [toIdentifier]. *)
Fixpoint raw_worklet_names (host : Host) (funs : list WorkletizableFunction)
    (state : ReanimatedPluginPass) : list js_string :=
  match funs with
  | [] => []
  | fun_ :: rest =>
      raw_worklet_name host fun_ state
      :: raw_worklet_names host rest (increment_workletNumber state)
  end.



(* ================================================================== *)
(** ** Wrapper emitter *)
(* ================================================================== *)

(** What one call leaves behind: the returned function expression, the
    statements put before the top-level statement by [insertBefore], the
    function node after the directive stripper and the state after the
    naming resolver. *)
Record WorkletFactory : Type := {
  newFun : Expression;
  insertedBefore : list Statement;
  fun_after : WorkletizableFunction;
  state_after : ReanimatedPluginPass
}.

(** [isFunctionDeclaration] and [isObjectMethod] on [funExpression]. *)
Definition expression_isFunctionDeclaration (e : Expression) : bool :=
  match e with sourceNode f => isFunctionDeclaration f | _ => false end.
Definition expression_isObjectMethod (e : Expression) : bool :=
  match e with sourceNode f => isObjectMethod f | _ => false end.

(** The path [fun] once its node has been rewritten in place. *)
Definition with_node (fun_ : NodePath) (n : WorkletizableFunction) : NodePath :=
  {| node := n;
     fun_identifiers := fun_identifiers fun_;
     parentPath_isProgram := parentPath_isProgram fun_;
     has_topLevel_ancestor := has_topLevel_ancestor fun_ |}.

(** [functionIdentifier.<property> = value;] *)
Definition assign_member (functionIdentifier : Identifier)
    (property : string) (value : Expression) : Statement :=
  expressionStatement
    (assignmentExpression "="
       (memberExpression (identifierNode functionIdentifier)
          (identifierNode (identifier (js property))) false)
       value).

(** [lineOffset], after the [if]. *)
Definition line_offset (variables : list Identifier) : Z :=
  let lineOffset := 1%Z in
  if Nat.ltb 0 (List.length variables)
  then (lineOffset - (Z.of_nat (List.length variables) + 2))%Z
  else lineOffset.

(** The declaration of [_e]. *)
Definition diagnostic_anchor (lineOffset : Z) : Statement :=
  variableDeclaration "const"
    [variableDeclarator (identifier (js "_e"))
       (arrayExpression
          [newExpression
             (memberExpression (identifierNode (identifier (js "global")))
                (identifierNode (identifier (js "Error"))) false)
             [];
           numericLiteral lineOffset;
           numericLiteral (-27)%Z])].

(** The properties of [initDataObjectExpression] after the three
    conditional pushes. *)
Definition init_data_properties (host : Host) (state : ReanimatedPluginPass)
    (filename_ funString : js_string) (sourceMapString : option js_string)
  : list Property :=
  let properties :=
    [objectProperty (identifierNode (identifier (js "code")))
       (stringLiteral funString) false false] in
  let shouldInjectLocation := negb (isRelease host) in
  let '(properties, sourceMapString) :=
    if shouldInjectLocation then
      let location := filename_ in
      let '(location, sourceMapString) :=
        if relativeSourceLocation state then
          let location := relative host (cwd state) location in
          (location,
           option_map (fun m => String_replace host m filename_ location)
             sourceMapString)
        else (location, sourceMapString) in
      (properties ++
       [objectProperty (identifierNode (identifier (js "location")))
          (stringLiteral location) false false],
       sourceMapString)
    else (properties, sourceMapString) in
  let properties :=
    match sourceMapString with
    | Some m =>
        if truthy m
        then properties ++
             [objectProperty (identifierNode (identifier (js "sourceMap")))
                (stringLiteral m) false false]
        else properties
    | None => properties
    end in
  let shouldInjectVersion := negb (isRelease host) in
  if shouldInjectVersion
  then properties ++
       [objectProperty (identifierNode (identifier (js "version")))
          (stringLiteral
             (if shouldMockVersion host then MOCK_VERSION else REAL_VERSION host))
          false false]
  else properties.

Definition makeWorkletFactory (host : Host) (fun_ : NodePath)
    (state : ReanimatedPluginPass) : Result WorkletFactory :=
  let fun_node := removeWorkletDirective (node fun_) in
  filename_ <-
    match filename state with
    | Some f =>
        if truthy f then Ok f
        else AssertionError "[Reanimated] `state.file.opts.filename` is undefined."
    | None => AssertionError "[Reanimated] `state.file.opts.filename` is undefined."
    end ;;
  let codeObject := generate host fun_node filename_ in
  let code :=
    js "(" ++ (if isObjectMethod fun_node then js "function " else [])
    ++ fst codeObject ++ [10%N] ++ js ")" in
  transformed <-
    match transformSync host code filename_ (snd codeObject) with
    | Some t => Ok t
    | None => AssertionError "[Reanimated] `transformed` is undefined."
    end ;;
  transformed_ast <-
    match ast transformed with
    | Some a => Ok a
    | None => AssertionError "[Reanimated] `transformed.ast` is undefined."
    end ;;
  let variables :=
    makeArrayFromCapturedBindings (globals_has host) transformed_ast
      (with_node fun_ fun_node) in
  let '(functionName, state) := makeWorkletName host fun_node state in
  let functionIdentifier := identifier functionName in
  let clone := fun_node in
  let funExpression :=
    if isBlockStatement (f_body clone)
    then functionExpression None (f_params clone) (sourceBody (f_body clone))
           (f_generator clone) (f_async clone)
    else sourceNode clone in
  let '(funString, sourceMapString) :=
    buildWorkletString host transformed_ast state variables functionName
      (map_ transformed) in
  assert (truthy funString) "[Reanimated] `funString` is undefined." ;;;
  let workletHash := hash funString in
  let lineOffset := line_offset variables in
  (* [pathForStringDefinitions] is [fun] or the ancestor found by
     [findParent]; its [parentPath] is the program either way, so the
     second assertion on it holds whenever the first does. *)
  assert (parentPath_isProgram fun_ || has_topLevel_ancestor fun_)
    "[Reanimated] `pathForStringDefinitions` is null." ;;;
  let initDataId :=
    generateUidIdentifier host
      (js "worklet_" ++ Number_toString (Z.to_N workletHash)
       ++ js "_init_data") in
  let initDataObjectExpression :=
    objectExpression
      (init_data_properties host state filename_ funString sourceMapString) in
  let shouldIncludeInitData := negb (omitNativeOnlyData state) in
  let inserted :=
    if shouldIncludeInitData
    then [variableDeclaration "const"
            [variableDeclarator initDataId initDataObjectExpression]]
    else [] in
  assert (negb (expression_isFunctionDeclaration funExpression))
    "[Reanimated] `funExpression` is a `FunctionDeclaration`." ;;;
  assert (negb (expression_isObjectMethod funExpression))
    "[Reanimated] `funExpression` is an `ObjectMethod`." ;;;
  let statements :=
    [variableDeclaration "const"
       [variableDeclarator functionIdentifier funExpression];
     assign_member functionIdentifier "__closure"
       (objectExpression
          (map (fun variable =>
                  objectProperty (identifierNode (identifier (name variable)))
                    (identifierNode variable) false true)
               variables));
     assign_member functionIdentifier "__workletHash"
       (numericLiteral workletHash)] in
  let statements :=
    if shouldIncludeInitData
    then statements ++
         [assign_member functionIdentifier "__initData"
            (identifierNode initDataId)]
    else statements in
  let statements :=
    if negb (isRelease host)
    then (diagnostic_anchor lineOffset :: statements) ++
         [assign_member functionIdentifier "__stackDetails"
            (identifierNode (identifier (js "_e")))]
    else statements in
  let statements := statements ++ [returnStatement (identifierNode functionIdentifier)] in
  Ok {| newFun := functionExpression None [] (blockStatement statements)
                    false false;
        insertedBefore := inserted;
        fun_after := fun_node;
        state_after := state |}.

(** [funExpression] for a stripped function node. *)
Definition declared_function (clone : WorkletizableFunction) : Expression :=
  if isBlockStatement (f_body clone)
  then functionExpression None (f_params clone) (sourceBody (f_body clone))
         (f_generator clone) (f_async clone)
  else sourceNode clone.

(** [__closure]'s object: one shorthand property per captured binding. *)
Definition closure_object (variables : list Identifier) : Expression :=
  objectExpression
    (map (fun variable =>
            objectProperty (identifierNode (identifier (name variable)))
              (identifierNode variable) false true)
       variables).

(** The body of the wrapper in the order the specification gives:
    (1) in development mode the diagnostic anchor, (2) the declaration
    of the function under its resolved name, (3) the closure record,
    (4) the identity, (5) unless metadata is omitted the reference to
    the hoisted constant, (6) in development mode the anchor attached,
    (7) the return of the named function. *)
Definition wrapper_statements (development metadata : bool)
    (functionName : js_string) (funExpression : Expression)
    (variables : list Identifier) (workletHash : Z) (initDataId : Identifier)
  : list Statement :=
  let functionIdentifier := identifier functionName in
  (if development then [diagnostic_anchor (line_offset variables)] else [])
  ++ [variableDeclaration "const"
        [variableDeclarator functionIdentifier funExpression]]
  ++ [assign_member functionIdentifier "__closure" (closure_object variables)]
  ++ [assign_member functionIdentifier "__workletHash"
        (numericLiteral workletHash)]
  ++ (if metadata
      then [assign_member functionIdentifier "__initData"
              (identifierNode initDataId)]
      else [])
  ++ (if development
      then [assign_member functionIdentifier "__stackDetails"
              (identifierNode (identifier (js "_e")))]
      else [])
  ++ [returnStatement (identifierNode functionIdentifier)].

(** Readers of the emitted nodes. *)
Definition wrapper_body (e : Expression) : list Statement :=
  match e with
  | functionExpression _ _ (blockStatement statements) _ _ => statements
  | _ => []
  end.

(** The property a statement [<object>.<property> = value;] assigns. *)
Definition assigned_member (s : Statement) : option js_string :=
  match s with
  | expressionStatement
      (assignmentExpression _ (memberExpression _ (identifierNode p) _) _) =>
      Some (name p)
  | _ => None
  end.

Definition property_key (p : Property) : option js_string :=
  match p with
  | objectProperty (identifierNode k) _ _ _ => Some (name k)
  | _ => None
  end.

Definition property_is_shorthand (p : Property) : bool :=
  match p with objectProperty _ _ _ shorthand => shorthand end.

(** A host for the sample runs: the file's last path segment as its base
    name, [toIdentifier] and the relative path left as they are, a code
    generator and a lowering that return the given text and tree. *)
Definition sample_host (release : bool) (lowered : BabelFile)
    (funString : js_string) : Host :=
  {| globals_has := no_globals;
     isRelease := release;
     REANIMATED_JEST_SHOULD_MOCK_VERSION := Some (js "1");
     REAL_VERSION := js "3.16.0";
     basename := fun filepath => last (split slash filepath) [];
     relative := fun _ filepath => filepath;
     String_replace := fun s _ _ => s;
     toIdentifier := fun s => s;
     generate := fun _ _ => (funString, []);
     transformSync := fun _ _ _ =>
       Some {| ast := Some lowered; map_ := None |};
     buildWorkletString := fun _ _ _ _ _ => (funString, None);
     generateUidIdentifier := fun n => identifier (js "_" ++ n) |}.

Definition sample_state (omit : bool) : ReanimatedPluginPass :=
  {| filename := Some (js "/app/src/App.js");
     cwd := js "/app";
     relativeSourceLocation := false;
     omitNativeOnlyData := omit;
     workletNumber := 1 |}.

(** [() => { 'worklet'; return x + x; }] at the top level of its file,
    with the identifier paths of its lowered tree. *)
Definition sample_lowered : BabelFile :=
  {| file_identifiers := [free_reference "x" 1 20; free_reference "x" 1 24] |}.

Definition sample_fun : NodePath :=
  path_of
    (arrow_function
       (BlockStatement
          [OtherNode "ReturnStatement"
             [OtherNode "BinaryExpression"
                [IdentifierNode {| name := js "x"; loc := loc_at 7 30 |};
                 IdentifierNode {| name := js "x"; loc := loc_at 7 34 |}]]]
          [{| directive_value := js "worklet" |}]))
    [free_reference "x" 7 30; free_reference "x" 7 34].

Definition sample_code : js_string :=
  js "function anonymous(){const{x}=this.__closure;return x+x;}".

Definition dev_host : Host := sample_host false sample_lowered sample_code.
Definition release_host : Host := sample_host true sample_lowered sample_code.

Definition sample_transformed : BabelFileResult :=
  {| ast := Some sample_lowered; map_ := None |}.

(** [function add(a, b) { 'worklet'; return a + b; }], whose body holds
    a nested function with a directive of its own:
    [function add() { 'worklet'; 'use strict';
       const g = function () { 'worklet'; }; }]. *)
Definition nested_worklet : Node :=
  FunctionNode FunctionExpression None None []
    (BlockStatement [] [{| directive_value := js "worklet" |}]) false false.

Definition add_function : WorkletizableFunction :=
  {| f_type := FunctionDeclaration;
     f_id := Some (identifier (js "add"));
     f_key := None;
     f_params := [];
     f_body :=
       BlockStatement
         [OtherNode "VariableDeclaration"
            [OtherNode "VariableDeclarator"
               [IdentifierNode (identifier (js "g")); nested_worklet]]]
         [{| directive_value := js "worklet" |};
          {| directive_value := js "use strict" |}];
     f_generator := false;
     f_async := false |}.

(** The text [generate] prints for the function, wrapped for
    [transformSync], and what [transformSync] makes of it. *)
Definition lowered (host : Host) (fun_node : WorkletizableFunction)
    (filename_ : js_string) : option BabelFileResult :=
  let codeObject := generate host fun_node filename_ in
  transformSync host
    (js "(" ++ (if isObjectMethod fun_node then js "function " else [])
     ++ fst codeObject ++ [10%N] ++ js ")")
    filename_ (snd codeObject).

(** The name of the hoisted constant. *)
Definition init_data_id (host : Host) (workletHash : Z) : Identifier :=
  generateUidIdentifier host
    (js "worklet_" ++ Number_toString (Z.to_N workletHash) ++ js "_init_data").

(** What a call leaves behind when no assertion fails, put together the
    way the specification words it: the wrapper with its statements in
    the order of [wrapper_statements], and the hoisted constant unless
    the minimal-data option is set. *)
Definition emitted (host : Host) (fun_ : NodePath) (state : ReanimatedPluginPass)
    (filename_ : js_string) (transformed : BabelFileResult) (ast_ : BabelFile)
  : WorkletFactory :=
  let fun_node := removeWorkletDirective (node fun_) in
  let variables :=
    makeArrayFromCapturedBindings (globals_has host) ast_
      (with_node fun_ fun_node) in
  let functionName := fst (makeWorkletName host fun_node state) in
  let state' := increment_workletNumber state in
  let built :=
    buildWorkletString host ast_ state' variables functionName
      (map_ transformed) in
  let workletHash := hash (fst built) in
  let initDataId := init_data_id host workletHash in
  let metadata := negb (omitNativeOnlyData state) in
  {| newFun :=
       functionExpression None []
         (blockStatement
            (wrapper_statements (negb (isRelease host)) metadata functionName
               (declared_function fun_node) variables workletHash initDataId))
         false false;
     insertedBefore :=
       if metadata
       then [variableDeclaration "const"
               [variableDeclarator initDataId
                  (objectExpression
                     (init_data_properties host state' filename_
                        (fst built) (snd built)))]]
       else [];
     fun_after := fun_node;
     state_after := state' |}.

(** The assertions of the factory, as one condition on its inputs. *)
Definition assertions_hold (host : Host) (fun_ : NodePath)
    (state : ReanimatedPluginPass) (filename_ : js_string)
    (transformed : BabelFileResult) (ast_ : BabelFile) : Prop :=
  let fun_node := removeWorkletDirective (node fun_) in
  let variables :=
    makeArrayFromCapturedBindings (globals_has host) ast_
      (with_node fun_ fun_node) in
  let functionName := fst (makeWorkletName host fun_node state) in
  let built :=
    buildWorkletString host ast_ (increment_workletNumber state) variables
      functionName (map_ transformed) in
  filename state = Some filename_
  /\ truthy filename_ = true
  /\ lowered host fun_node filename_ = Some transformed
  /\ ast transformed = Some ast_
  /\ truthy (fst built) = true
  /\ parentPath_isProgram fun_ || has_topLevel_ancestor fun_ = true
  /\ expression_isFunctionDeclaration (declared_function fun_node) = false
  /\ expression_isObjectMethod (declared_function fun_node) = false.

(** The sample runs: what the factory leaves behind for [sample_fun]. *)
Definition sample_emitted (host : Host) (omit : bool) : WorkletFactory :=
  emitted host sample_fun (sample_state omit) (js "/app/src/App.js")
    sample_transformed sample_lowered.

(* ================================================================== *)
(** ** Further notions used in Part II *)
(* ================================================================== *)

(** Two integers part at bit [j]: they agree on the bits below [j] and
    differ at bit [j]. *)
Definition part_at (j x y : Z) : Prop :=
  (2 ^ j | x - y)%Z /\ ~ (2 ^ (j + 1) | x - y)%Z.

(** A UTF-16 code unit. *)
Definition code_unit (c : N) : Prop := (c < 65536)%N.

(** The directives the function holds for itself, over the three places
    [fun.traverse] reaches. *)
Definition function_own_directives (fun_ : WorkletizableFunction)
  : list Directive :=
  match f_key fun_ with Some k => own_directives k | None => [] end
  ++ flat_map own_directives (f_params fun_)
  ++ own_directives (f_body fun_).

(** [segments.join(sep)] for a separator of one code unit. *)
Fixpoint join (sep : N) (segments : list js_string) : js_string :=
  match segments with
  | [] => []
  | [s] => s
  | s :: rest => s ++ sep :: join sep rest
  end.

Definition free_of (sep : N) (s : js_string) : Prop := ~ In sep s.

(* ================================================================== *)
(** ** The sanitizer of [@babel/types] *)
(* ================================================================== *)

(** [toIdentifier] is not part of this repository.  To run the naming
    resolver on a file name, it is written out here from
    [@babel/types] ([converters/toIdentifier], [isValidIdentifier]) and
    [@babel/helper-validator-identifier] ([isIdentifierStart],
    [isIdentifierChar], [isIdentifierName], the keyword lists).  What
    these take from the Unicode tables, for a code unit from 0xaa on,
    and [toUpperCase] outside ASCII are the fields of [Unicode]; the
    text is read code unit by code unit, as the sanitizer reads the
    Basic Multilingual Plane. *)
Record Unicode : Type := {
  nonASCIIidentifierStart : N -> bool;
  nonASCIIidentifier : N -> bool;
  toUpperCase_nonASCII : N -> js_string
}.

Definition isIdentifierStart (u : Unicode) (code : N) : bool :=
  if (code <? 65)%N then (code =? 36)%N
  else if (code <=? 90)%N then true
  else if (code <? 97)%N then (code =? 95)%N
  else if (code <=? 122)%N then true
  else (170 <=? code)%N && nonASCIIidentifierStart u code.

Definition isIdentifierChar (u : Unicode) (code : N) : bool :=
  if (code <? 48)%N then (code =? 36)%N
  else if (code <? 58)%N then true
  else if (code <? 65)%N then false
  else if (code <=? 90)%N then true
  else if (code <? 97)%N then (code =? 95)%N
  else if (code <=? 122)%N then true
  else (170 <=? code)%N && nonASCIIidentifier u code.

Definition isIdentifierName (u : Unicode) (name_ : js_string) : bool :=
  match name_ with
  | [] => false
  | c :: rest => isIdentifierStart u c && forallb (isIdentifierChar u) rest
  end.

(** [isKeyword(name) || isStrictReservedWord(name, true)] *)
Definition reserved_words : list string :=
  ["break"; "case"; "catch"; "continue"; "debugger"; "default"; "do";
   "else"; "finally"; "for"; "function"; "if"; "return"; "switch"; "throw";
   "try"; "var"; "const"; "while"; "with"; "new"; "this"; "super"; "class";
   "extends"; "export"; "import"; "null"; "true"; "false"; "in";
   "instanceof"; "typeof"; "void"; "delete";
   "implements"; "interface"; "let"; "package"; "private"; "protected";
   "public"; "static"; "yield"; "await"; "enum"]%string.

Definition isValidIdentifier (u : Unicode) (name_ : js_string) : bool :=
  negb (existsb (fun w => js_eqb name_ (js w)) reserved_words)
  && isIdentifierName u name_.

(** [name.replace(/^[-0-9]+/, "")] *)
Fixpoint strip_dashes_and_digits (s : js_string) : js_string :=
  match s with
  | [] => []
  | c :: rest =>
      if N.eqb c 45 || isDigit c then strip_dashes_and_digits rest else s
  end.

(** The class [[-\s]]. *)
Definition dash_or_space (c : N) : bool :=
  N.eqb c 45
  || existsb (N.eqb c)
       [9; 10; 11; 12; 13; 32; 160; 5760; 8232; 8233; 8239; 8287; 12288;
        65279]%N
  || ((8192 <=? c) && (c <=? 8202))%N.

Definition toUpperCase (u : Unicode) (c : N) : js_string :=
  if ((97 <=? c) && (c <=? 122))%N then [(c - 32)%N]
  else if (c <? 128)%N then [c]
  else toUpperCase_nonASCII u c.

(** [name.replace(/[-\s]+(.)?/g, (match, c) => c ? c.toUpperCase() : "")]:
    [after_run] says that a run of dashes or spaces has just been read. *)
Fixpoint camelCase (u : Unicode) (after_run : bool) (s : js_string)
  : js_string :=
  match s with
  | [] => []
  | c :: rest =>
      if dash_or_space c then camelCase u true rest
      else (if after_run then toUpperCase u c else [c])
           ++ camelCase u false rest
  end.

Definition babel_toIdentifier (u : Unicode) (input : js_string) : js_string :=
  let name_ := map (fun c => if isIdentifierChar u c then c else 45%N) input in
  let name_ := strip_dashes_and_digits name_ in
  let name_ := camelCase u false name_ in
  let name_ := if isValidIdentifier u name_ then name_ else 95%N :: name_ in
  if truthy name_ then name_ else js "_".

(** A stand-in for the tables; the runs below are on ASCII text, where
    they are not consulted. *)
Definition no_tables : Unicode :=
  {| nonASCIIidentifierStart := fun _ => false;
     nonASCIIidentifier := fun _ => false;
     toUpperCase_nonASCII := fun c => [c] |}.


(** The state of a file at [path], the counter at [n]. *)
Definition state_of (path : string) (n : N) : ReanimatedPluginPass :=
  {| filename := Some (js path);
     cwd := js "/app";
     relativeSourceLocation := false;
     omitNativeOnlyData := false;
     workletNumber := n |}.

(* ################################################################## *)
(** * Part II: properties *)
(* ################################################################## *)

(* ================================================================== *)
(** ** Strings and maps *)
(* ================================================================== *)

Lemma js_eqb_eq (a b : js_string) : js_eqb a b = true <-> a = b.
Proof.
  revert b; induction a as [|x a IH]; intros [|y b]; simpl;
    try (split; (reflexivity || discriminate)).
  rewrite andb_true_iff, N.eqb_eq, IH.
  split; [intros [-> ->]; reflexivity | intros E; inversion E; auto].
Qed.

Lemma js_eqb_refl (a : js_string) : js_eqb a a = true.
Proof. apply js_eqb_eq; reflexivity. Qed.

Lemma js_eqb_neq (a b : js_string) : js_eqb a b = false <-> a <> b.
Proof.
  rewrite <- js_eqb_eq. destruct (js_eqb a b); split; congruence.
Qed.

Lemma js_eqb_sym (a b : js_string) : js_eqb a b = js_eqb b a.
Proof.
  destruct (js_eqb a b) eqn:E.
  - apply js_eqb_eq in E; subst; symmetry; apply js_eqb_refl.
  - symmetry; apply js_eqb_neq; apply js_eqb_neq in E; congruence.
Qed.

(* ================================================================== *)
(** ** Identity hasher *)
(* ================================================================== *)

Section HashFacts.
Local Open Scope Z_scope.

Lemma ToInt32_range (z : Z) : - 2 ^ 31 <= ToInt32 z < 2 ^ 31.
Proof.
  unfold ToInt32.
  pose proof (Z.mod_pos_bound (z + 2 ^ 31) (2 ^ 32) ltac:(lia)). lia.
Qed.

Lemma ToInt32_small (z : Z) : - 2 ^ 31 <= z < 2 ^ 31 -> ToInt32 z = z.
Proof.
  intros H. unfold ToInt32. rewrite Z.mod_small; lia.
Qed.

Lemma ToUint32_range (z : Z) : 0 <= ToUint32 z <= 2 ^ 32 - 1.
Proof.
  unfold ToUint32.
  pose proof (Z.mod_pos_bound z (2 ^ 32) ltac:(lia)). lia.
Qed.

Lemma ToUint32_ToInt32 (z : Z) : ToUint32 (ToInt32 z) = ToUint32 z.
Proof.
  unfold ToUint32, ToInt32.
  rewrite Zminus_mod_idemp_l.
  f_equal. lia.
Qed.

Lemma ToUint32_idem (z : Z) : ToUint32 (ToUint32 z) = ToUint32 z.
Proof. unfold ToUint32. apply Z.mod_mod. lia. Qed.

Lemma ToUint32_land (z : Z) : ToUint32 z = Z.land z (Z.ones 32).
Proof. unfold ToUint32. rewrite Z.land_ones by lia. reflexivity. Qed.

(** The low 32 bits of an exclusive or are the exclusive or of the low
    32 bits. *)
Lemma ToUint32_lxor (a b : Z) :
  ToUint32 (Z.lxor a b) = Z.lxor (ToUint32 a) (ToUint32 b).
Proof.
  rewrite !ToUint32_land.
  apply Z.bits_inj'; intros n Hn.
  rewrite Z.land_spec, !Z.lxor_spec, !Z.land_spec.
  destruct (Z.testbit (Z.ones 32) n);
    rewrite ?andb_true_r, ?andb_false_r; reflexivity.
Qed.

Lemma ToUint32_mul33 (a b : Z) :
  ToUint32 a = ToUint32 b -> ToUint32 (a * 33) = ToUint32 (b * 33).
Proof.
  unfold ToUint32; intros H.
  rewrite <- (Z.mul_mod_idemp_l a), <- (Z.mul_mod_idemp_l b) by lia.
  now rewrite H.
Qed.

(** Exclusive or keeps two signed 32-bit integers within the signed
    32-bit range: the result of [^] is an Int32. *)
Lemma lxor_nonneg_bound (a b : Z) :
  0 <= a < 2 ^ 31 -> 0 <= b < 2 ^ 31 -> 0 <= Z.lxor a b < 2 ^ 31.
Proof.
  intros Ha Hb.
  assert (H0 : 0 <= Z.lxor a b) by (apply Z.lxor_nonneg; lia).
  split; [exact H0|].
  destruct (Z.eq_dec (Z.lxor a b) 0) as [E|E]; [rewrite E; lia|].
  apply Z.log2_lt_pow2; [lia|].
  eapply Z.le_lt_trans; [apply Z.log2_lxor; lia|].
  apply Z.max_lub_lt.
  - destruct (Z.eq_dec a 0) as [->|]; [simpl; lia|].
    apply Z.log2_lt_pow2; lia.
  - destruct (Z.eq_dec b 0) as [->|]; [simpl; lia|].
    apply Z.log2_lt_pow2; lia.
Qed.

Lemma lxor_int32_range (a b : Z) :
  - 2 ^ 31 <= a < 2 ^ 31 -> - 2 ^ 31 <= b < 2 ^ 31 ->
  - 2 ^ 31 <= Z.lxor a b < 2 ^ 31.
Proof.
  intros Ha Hb.
  destruct (Z.neg_nonneg_cases a) as [Na|Na];
    destruct (Z.neg_nonneg_cases b) as [Nb|Nb].
  - rewrite <- (Z.lnot_involutive a), <- (Z.lnot_involutive b).
    rewrite Z.lxor_lnot_lnot.
    pose proof (Z.lnot_involutive a); pose proof (Z.lnot_involutive b).
    assert (0 <= Z.lnot a < 2 ^ 31) by (unfold Z.lnot; lia).
    assert (0 <= Z.lnot b < 2 ^ 31) by (unfold Z.lnot; lia).
    pose proof (lxor_nonneg_bound H1 H2). lia.
  - rewrite <- (Z.lnot_involutive a), <- Z.lnot_lxor_l.
    assert (0 <= Z.lnot a < 2 ^ 31) by (unfold Z.lnot; lia).
    pose proof (@lxor_nonneg_bound (Z.lnot a) b H ltac:(lia)).
    set (x := Z.lxor (Z.lnot a) b) in *. unfold Z.lnot. lia.
  - rewrite <- (Z.lnot_involutive b), <- Z.lnot_lxor_r.
    assert (0 <= Z.lnot b < 2 ^ 31) by (unfold Z.lnot; lia).
    pose proof (@lxor_nonneg_bound a (Z.lnot b) ltac:(lia) H).
    set (x := Z.lxor a (Z.lnot b)) in *. unfold Z.lnot. lia.
  - pose proof (@lxor_nonneg_bound a b ltac:(lia) ltac:(lia)). lia.
Qed.

Lemma bitxor_range (a b : Z) : - 2 ^ 31 <= bitxor a b < 2 ^ 31.
Proof.
  unfold bitxor. apply lxor_int32_range; apply ToInt32_range.
Qed.

(** [bitxor] is the signed reading of the exclusive or of the low 32
    bits of its operands. *)
Lemma bitxor_ToInt32 (a b : Z) : bitxor a b = ToInt32 (Z.lxor a b).
Proof.
  assert (E : ToUint32 (bitxor a b) = ToUint32 (Z.lxor a b)).
  { unfold bitxor.
    rewrite ToUint32_lxor, !ToUint32_ToInt32, <- ToUint32_lxor. reflexivity. }
  rewrite <- (ToInt32_small (bitxor_range a b)).
  revert E. generalize (bitxor a b) (Z.lxor a b). intros x y E.
  unfold ToUint32 in E. unfold ToInt32. f_equal.
  rewrite <- (Zplus_mod_idemp_l x), E, Zplus_mod_idemp_l.
  reflexivity.
Qed.

Lemma hash_loop_fold (str : js_string) (i : nat) (h1 h2 : Z) :
  (i <= List.length str)%nat ->
  hash_loop str i h1 h2 =
  (fold_left round (rev (firstn i str)) h1,
   fold_left round (rev (firstn i str)) h2).
Proof.
  revert h1 h2; induction i as [|i IH]; intros h1 h2 Hi; [reflexivity|].
  simpl hash_loop. rewrite IH by lia.
  assert (E : firstn (S i) str = firstn i str ++ [nth i str 0%N]).
  { clear - Hi. revert str Hi; induction i as [|i IH]; intros [|c s] Hi;
      simpl in *; try lia; [reflexivity|].
    f_equal. apply IH. lia. }
  rewrite E, rev_app_distr. reflexivity.
Qed.

Lemma hash_unfold (str : js_string) :
  hash str =
  ToUint32 (fold_left round (rev str) 5381) * 4096
  + ToUint32 (fold_left round (rev str) 52711).
Proof.
  unfold hash. rewrite hash_loop_fold by lia.
  rewrite firstn_all. reflexivity.
Qed.

Lemma round_spec_step (trunc : Z -> Z) (h h' : Z) (c : N) :
  (forall z, ToUint32 (trunc z) = ToUint32 z) ->
  ToUint32 h = ToUint32 h' ->
  ToUint32 (round h c) = ToUint32 (spec_step trunc h' c).
Proof.
  intros Ht Hh. unfold round, spec_step.
  rewrite bitxor_ToInt32, ToUint32_ToInt32, Ht, !ToUint32_lxor.
  f_equal. now apply ToUint32_mul33.
Qed.

Lemma fold_round_spec (trunc : Z -> Z) (l : js_string) (h h' : Z) :
  (forall z, ToUint32 (trunc z) = ToUint32 z) ->
  ToUint32 h = ToUint32 h' ->
  ToUint32 (fold_left round l h) = ToUint32 (fold_left (spec_step trunc) l h').
Proof.
  intros Ht; revert h h'; induction l as [|c l IH]; intros h h' Hh; simpl.
  - exact Hh.
  - apply IH. now apply round_spec_step.
Qed.

Lemma hash_spec_hash (trunc : Z -> Z) (str : js_string) :
  (forall z, ToUint32 (trunc z) = ToUint32 z) ->
  hash str = spec_hash trunc str.
Proof.
  intros Ht. rewrite hash_unfold. unfold spec_hash, spec_scan.
  change (fold_left (spec_step trunc) (rev str) 5381 mod 2 ^ 32)
    with (ToUint32 (fold_left (spec_step trunc) (rev str) 5381)).
  change (fold_left (spec_step trunc) (rev str) 52711 mod 2 ^ 32)
    with (ToUint32 (fold_left (spec_step trunc) (rev str) 52711)).
  rewrite (@fold_round_spec trunc (rev str) 5381 5381 Ht eq_refl).
  rewrite (@fold_round_spec trunc (rev str) 52711 52711 Ht eq_refl).
  reflexivity.
Qed.

(** Every value an accumulator takes is a signed 32-bit integer, the
    product the loop forms from it stays below 2^53 in magnitude, and so
    does the result: the double arithmetic of the source is exact. *)
Lemma fold_round_range (l : js_string) (h : Z) :
  - 2 ^ 31 <= h < 2 ^ 31 -> - 2 ^ 31 <= fold_left round l h < 2 ^ 31.
Proof.
  revert h; induction l as [|c l IH]; intros h Hh; simpl; [exact Hh|].
  apply IH. apply bitxor_range.
Qed.

Lemma hash_loop_exact (str : js_string) (i : nat) (h1 h2 : Z) :
  (i <= List.length str)%nat ->
  - 2 ^ 31 <= h1 < 2 ^ 31 -> - 2 ^ 31 <= h2 < 2 ^ 31 ->
  let '(r1, r2) := hash_loop str i h1 h2 in
  (- 2 ^ 53 < r1 * 33 < 2 ^ 53) /\ (- 2 ^ 53 < r2 * 33 < 2 ^ 53).
Proof.
  intros Hi H1 H2. rewrite hash_loop_fold by exact Hi.
  pose proof (fold_round_range (rev (firstn i str)) H1).
  pose proof (fold_round_range (rev (firstn i str)) H2).
  lia.
Qed.

(** C2.  For every string, [hash] is the algorithm of the specification:
    accumulators seeded 5381 and 52711, a scan from the last character
    to the first, each step the 32-bit truncation of
    [(accumulator * 33) xor charCode], both masked to the unsigned
    32-bit range, and [hash1 * 4096 + hash2] returned.  It holds with the
    truncation read as signed (what [^] computes) and as unsigned. *)
Theorem hash_is_two_seed_rolling_hash (str : js_string) :
  hash str = spec_hash ToInt32 str /\ hash str = spec_hash ToUint32 str.
Proof.
  split; apply hash_spec_hash; intros z.
  - apply ToUint32_ToInt32.
  - apply ToUint32_idem.
Qed.

(** C10, as amended.  The result of [hash] is a non-negative integer,
    at most [(2^32 - 1) * 4096 + (2^32 - 1)]; that bound is
    [2^44 + 2^32 - 4097], so the result is below 2^45 (and below 2^53:
    exactly representable as a double); the empty string hashes to
    [5381 * 4096 + 52711]. *)
Theorem hash_bounds (str : js_string) :
  0 <= hash str <= (2 ^ 32 - 1) * 4096 + (2 ^ 32 - 1)
  /\ (2 ^ 32 - 1) * 4096 + (2 ^ 32 - 1) = 2 ^ 44 + 2 ^ 32 - 4097
  /\ hash str < 2 ^ 45
  /\ hash str < 2 ^ 53
  /\ hash [] = 5381 * 4096 + 52711.
Proof.
  rewrite hash_unfold.
  pose proof (ToUint32_range (fold_left round (rev str) 5381)).
  pose proof (ToUint32_range (fold_left round (rev str) 52711)).
  split; [lia|]. split; [reflexivity|]. split; [lia|]. split; [lia|].
  vm_compute. reflexivity.
Qed.

(** C10 as stated fails: the bound [(2^32 - 1) * 4096 + (2^32 - 1)]
    is not below 2^44, and the hash of this function text is not
    either. *)
Lemma hash_not_below_2_pow_44 :
  hash (js "function f(){return 4776;}") = 17593674645559
  /\ ~ (hash (js "function f(){return 4776;}") < 2 ^ 44).
Proof.
  assert (E : hash (js "function f(){return 4776;}") = 17593674645559)
    by (vm_compute; reflexivity).
  split; [exact E|]. rewrite E. lia.
Qed.

(** Values of [hash] to retrace by hand. *)
Example hash_a : hash (js "a") = 729205414.
Proof. vm_compute. reflexivity. Qed.

Example hash_worklet : hash (js "worklet") = 7470941817947.
Proof. vm_compute. reflexivity. Qed.

End HashFacts.

(* ================================================================== *)
(** ** Maps in insertion order *)
(* ================================================================== *)

Section MapFacts.
Variable V : Type.
Implicit Types (m : Map V) (k : js_string) (v : V).

Lemma Map_keys_set k v m : Map_keys (Map_set k v m) = add_key k (Map_keys m).
Proof.
  unfold add_key, Map_keys.
  induction m as [|[k' v'] m IH]; simpl; [reflexivity|].
  destruct (js_eqb k' k); simpl; [reflexivity|].
  rewrite IH. destruct (existsb _ (map fst m)); reflexivity.
Qed.

Lemma Map_get_set_same k v m : Map_get k (Map_set k v m) = Some v.
Proof.
  induction m as [|[k' v'] m IH]; simpl.
  - now rewrite js_eqb_refl.
  - destruct (js_eqb k' k) eqn:E; simpl; rewrite E; auto.
Qed.

Lemma Map_get_set_other k k' v m :
  js_eqb k k' = false -> Map_get k' (Map_set k v m) = Map_get k' m.
Proof.
  intros Hk. induction m as [|[k0 v0] m IH]; simpl.
  - now rewrite Hk.
  - destruct (js_eqb k0 k) eqn:E; simpl.
    + apply js_eqb_eq in E; subst k0. now rewrite Hk.
    + now rewrite IH.
Qed.

Lemma Map_get_set k k' v m :
  Map_get k' (Map_set k v m) = if js_eqb k k' then Some v else Map_get k' m.
Proof.
  destruct (js_eqb k k') eqn:E.
  - apply js_eqb_eq in E; subst. apply Map_get_set_same.
  - now apply Map_get_set_other.
Qed.

Lemma Map_get_some_key k m :
  is_some (Map_get k m) = existsb (fun k' => js_eqb k' k) (Map_keys m).
Proof.
  induction m as [|[k' v'] m IH]; simpl; [reflexivity|].
  destruct (js_eqb k' k); simpl; auto.
Qed.

(** Setting a key that is present moves nothing. *)
Lemma Map_keys_set_present k v m :
  is_some (Map_get k m) = true -> Map_keys (Map_set k v m) = Map_keys m.
Proof.
  intros H. rewrite Map_keys_set. unfold add_key.
  now rewrite <- Map_get_some_key, H.
Qed.

End MapFacts.

Lemma filter_filter {A : Type} (f g : A -> bool) (l : list A) :
  filter f (filter g l) = filter (fun x => g x && f x) l.
Proof.
  induction l as [|x l IH]; simpl; [reflexivity|].
  destruct (g x); simpl; [destruct (f x)|]; now rewrite IH.
Qed.

(** Adding keys one by one lists each new name once, where it first
    occurs. *)
Lemma fold_add_key (names acc : list js_string) :
  fold_left (fun keys k => add_key k keys) names acc =
  acc ++ filter (fun m => negb (existsb (fun k' => js_eqb k' m) acc))
           (first_occurrences names).
Proof.
  revert acc; induction names as [|n names IH]; intros acc; simpl.
  - now rewrite app_nil_r.
  - rewrite IH. unfold add_key.
    destruct (existsb (fun k' => js_eqb k' n) acc) eqn:E; simpl.
    + f_equal. rewrite filter_filter. apply filter_ext_in.
      intros m _. destruct (js_eqb n m) eqn:Enm; simpl; [|reflexivity].
      apply js_eqb_eq in Enm; subst m. now rewrite E.
    + rewrite <- app_assoc. simpl. do 2 f_equal.
      rewrite filter_filter. apply filter_ext.
      intros m. rewrite existsb_app. simpl. rewrite orb_false_r.
      destruct (js_eqb n m); simpl;
        [now rewrite orb_true_r | now rewrite orb_false_r].
Qed.

(* ================================================================== *)
(** ** Closure analyzer: the first traversal *)
(* ================================================================== *)

Section CaptureFacts.
Variable globals : js_string -> bool.
Variable fun_ : WorkletizableFunction.

Let visit := capture_visitor globals fun_.
Let captured := captures globals fun_.

(** [captures] spelled out: the six early returns of the visitor. *)
Lemma captures_true_iff (path : IdentifierPath) :
  captures globals fun_ path = true <->
  isReferencedIdentifier path = true
  /\ globals (path_name path) = false
  /\ is_own_name fun_ (path_name path) = false
  /\ is_member_property (path_parent path) = false
  /\ is_object_property_non_value path = false
  /\ scope_chain_binds (path_name path) (path_scope path) = false.
Proof.
  unfold captures, path_name.
  destruct (isReferencedIdentifier path); simpl; [|intuition discriminate].
  destruct (globals _); [intuition discriminate|].
  destruct (is_own_name _ _); [intuition discriminate|].
  destruct (is_member_property _); [intuition discriminate|].
  destruct (is_object_property_non_value _); [intuition discriminate|].
  destruct (scope_chain_binds _ _); intuition discriminate.
Qed.

(** Where the code and the rule of the specification part: the code
    skips every non-value position of an object property of an object
    literal, the rule only the shorthand keys.  Away from the keys of
    properties that are not shorthand, the two agree. *)
Lemma captures_spec_captures (path : IdentifierPath) :
  isReferencedIdentifier path = true ->
  is_object_property_non_value path = is_shorthand_key path ->
  captures globals fun_ path = spec_captures globals fun_ path.
Proof.
  intros Href Hkey. unfold captures, spec_captures, path_name.
  rewrite Href, Hkey. simpl.
  destruct (globals _), (is_own_name _ _), (is_member_property _),
    (is_shorthand_key _), (scope_chain_binds _ _); reflexivity.
Qed.

Lemma visit_keys (st : Captures) (path : IdentifierPath) :
  Map_keys (closure (visit st path)) =
  if captured path then add_key (path_name path) (Map_keys (closure st))
  else Map_keys (closure st).
Proof.
  unfold visit, captured, capture_visitor.
  destruct (captures globals fun_ path); simpl; [|reflexivity].
  apply Map_keys_set.
Qed.

Lemma visit_get (st : Captures) (path : IdentifierPath) (n : js_string) :
  Map_get n (closure (visit st path)) =
  if captured path && js_eqb (path_name path) n then Some (path_node path)
  else Map_get n (closure st).
Proof.
  unfold visit, captured, capture_visitor.
  destruct (captures globals fun_ path); simpl; [|reflexivity].
  apply Map_get_set.
Qed.

Lemma fold_visit_keys (paths : list IdentifierPath) (st : Captures) :
  Map_keys (closure (fold_left visit paths st)) =
  fold_left (fun keys k => add_key k keys)
    (map path_name (filter captured paths)) (Map_keys (closure st)).
Proof.
  revert st; induction paths as [|p paths IH]; intros st; simpl;
    [reflexivity|].
  rewrite IH, visit_keys. destruct (captured p); reflexivity.
Qed.

Lemma fold_visit_get (paths : list IdentifierPath) (st : Captures)
    (n : js_string) :
  Map_get n (closure (fold_left visit paths st)) =
  match last_named n (filter captured paths) with
  | Some q => Some (path_node q)
  | None => Map_get n (closure st)
  end.
Proof.
  revert st; induction paths as [|p paths IH]; intros st; simpl;
    [reflexivity|].
  rewrite IH, visit_get.
  destruct (captured p); simpl; [|reflexivity].
  destruct (last_named n (filter captured paths)); [reflexivity|].
  destruct (js_eqb (path_name p) n); reflexivity.
Qed.

(** During the first traversal no location is marked assigned. *)
Lemma visit_assigned (st : Captures) (path : IdentifierPath) (n : js_string) :
  location_assigned st n = false ->
  location_assigned (visit st path) n = false.
Proof.
  unfold visit, capture_visitor, location_assigned.
  destruct (captures globals fun_ path); simpl; [|auto].
  rewrite Map_get_set. destruct (js_eqb _ n); auto.
Qed.

Lemma fold_visit_assigned (paths : list IdentifierPath) (st : Captures)
    (n : js_string) :
  location_assigned st n = false ->
  location_assigned (fold_left visit paths st) n = false.
Proof.
  revert st; induction paths as [|p paths IH]; intros st H; simpl; auto.
  apply IH. now apply visit_assigned.
Qed.

Lemma first_traversal_keys (paths : list IdentifierPath) :
  Map_keys (closure (first_traversal globals fun_ paths)) =
  first_occurrences (map path_name (filter captured paths)).
Proof.
  unfold first_traversal. fold visit.
  rewrite fold_visit_keys, fold_add_key. simpl.
  generalize (first_occurrences (map path_name (filter captured paths))).
  intros l. induction l as [|x l IH]; simpl; [reflexivity|now rewrite IH].
Qed.

Lemma first_traversal_get (paths : list IdentifierPath) (n : js_string) :
  Map_get n (closure (first_traversal globals fun_ paths)) =
  option_map path_node (last_named n (filter captured paths)).
Proof.
  unfold first_traversal. fold visit. rewrite fold_visit_get.
  destruct (last_named n _); reflexivity.
Qed.

Lemma first_traversal_unassigned (paths : list IdentifierPath) (n : js_string) :
  location_assigned (first_traversal globals fun_ paths) n = false.
Proof.
  unfold first_traversal. fold visit.
  now apply fold_visit_assigned.
Qed.

End CaptureFacts.

(* ================================================================== *)
(** ** Closure analyzer: the second traversal *)
(* ================================================================== *)

Section LocationFacts.

Let matches (n : js_string) (p : IdentifierPath) : bool :=
  isReferencedIdentifier p && js_eqb (path_name p) n.

Lemma option_map_id {A : Type} (o : option A) : option_map (fun a => a) o = o.
Proof. destruct o; reflexivity. Qed.

Lemma location_visitor_keys (st : Captures) (p : IdentifierPath) :
  Map_keys (closure (location_visitor st p)) = Map_keys (closure st).
Proof.
  unfold location_visitor.
  destruct (isReferencedIdentifier p); simpl; [|reflexivity].
  destruct (Map_get (name (path_node p)) (closure st)) eqn:G; [|reflexivity].
  destruct (location_assigned st _); simpl; [reflexivity|].
  apply Map_keys_set_present. now rewrite G.
Qed.

Lemma location_visitor_get (st : Captures) (p : IdentifierPath)
    (n : js_string) :
  Map_get n (closure (location_visitor st p)) =
  option_map
    (fun node_ =>
       if matches n p && negb (location_assigned st n)
       then set_loc node_ (loc (path_node p)) else node_)
    (Map_get n (closure st)).
Proof.
  unfold location_visitor, matches, path_name.
  destruct (isReferencedIdentifier p); simpl;
    [|now rewrite option_map_id].
  destruct (js_eqb (name (path_node p)) n) eqn:E; simpl.
  - apply js_eqb_eq in E; subst n.
    destruct (Map_get (name (path_node p)) (closure st)) eqn:G;
      [|now rewrite G].
    destruct (location_assigned st _); simpl; [now rewrite G|].
    now rewrite Map_get_set_same.
  - rewrite option_map_id.
    destruct (Map_get (name (path_node p)) (closure st)); [|reflexivity].
    destruct (location_assigned st _); simpl; [reflexivity|].
    now apply Map_get_set_other.
Qed.

Lemma location_visitor_assigned (st : Captures) (p : IdentifierPath)
    (n : js_string) :
  location_assigned (location_visitor st p) n =
  location_assigned st n || (matches n p && is_some (Map_get n (closure st))).
Proof.
  unfold location_visitor, matches, path_name.
  destruct (isReferencedIdentifier p); simpl; [|now rewrite orb_false_r].
  destruct (js_eqb (name (path_node p)) n) eqn:E; simpl.
  - apply js_eqb_eq in E; subst n.
    destruct (Map_get (name (path_node p)) (closure st)) eqn:G; simpl;
      [|now rewrite orb_false_r].
    destruct (location_assigned st (name (path_node p))) eqn:A;
      [now rewrite A|].
    unfold location_assigned at 1; simpl. now rewrite Map_get_set_same.
  - rewrite orb_false_r.
    destruct (Map_get (name (path_node p)) (closure st)); [|reflexivity].
    destruct (location_assigned st (name (path_node p))); [reflexivity|].
    unfold location_assigned; simpl. now rewrite Map_get_set_other.
Qed.

Lemma second_traversal_keys (paths : list IdentifierPath) (st : Captures) :
  Map_keys (closure (second_traversal st paths)) = Map_keys (closure st).
Proof.
  unfold second_traversal.
  revert st; induction paths as [|p paths IH]; intros st; simpl;
    [reflexivity|].
  now rewrite IH, location_visitor_keys.
Qed.

Lemma second_traversal_get (paths : list IdentifierPath) (st : Captures)
    (n : js_string) :
  Map_get n (closure (second_traversal st paths)) =
  option_map (relocate st paths n) (Map_get n (closure st)).
Proof.
  unfold second_traversal.
  revert st; induction paths as [|p paths IH]; intros st; simpl.
  - unfold relocate; simpl.
    destruct (location_assigned st n); now rewrite option_map_id.
  - rewrite IH, location_visitor_get.
    destruct (Map_get n (closure st)) as [node_|] eqn:G; simpl; [|reflexivity].
    f_equal. unfold relocate, first_reference. simpl.
    rewrite location_visitor_assigned, G. fold (matches n p). simpl.
    rewrite andb_true_r.
    destruct (location_assigned st n); simpl; [now rewrite andb_false_r|].
    rewrite andb_true_r. destruct (matches n p); reflexivity.
Qed.

Lemma second_traversal_assigned (paths : list IdentifierPath) (st : Captures)
    (n : js_string) :
  location_assigned (second_traversal st paths) n =
  location_assigned st n
  || (is_some (Map_get n (closure st)) && is_some (first_reference n paths)).
Proof.
  unfold second_traversal.
  revert st; induction paths as [|p paths IH]; intros st; simpl.
  - now rewrite andb_false_r, orb_false_r.
  - rewrite IH, location_visitor_assigned, location_visitor_get.
    unfold first_reference; simpl. fold (matches n p).
    destruct (Map_get n (closure st)); simpl;
      destruct (location_assigned st n), (matches n p); simpl;
      rewrite ?andb_false_r, ?orb_false_r; reflexivity.
Qed.

Lemma relocate_name (st : Captures) (paths : list IdentifierPath)
    (n : js_string) (node_ : Identifier) :
  name (relocate st paths n node_) = name node_.
Proof.
  unfold relocate.
  destruct (location_assigned st n); [reflexivity|].
  destruct (first_reference n paths); reflexivity.
Qed.

End LocationFacts.

(** C7.  The second traversal only assigns locations.  The keys of the
    capture set are the same list afterwards, so no binding is added,
    removed or moved.  The node stored for a name has the name of the
    node stored before.  Its location is the one it had when the
    location of that name was already assigned, or when the original
    tree holds no referenced identifier of that name; otherwise it is
    the location of the first referenced identifier of that name in the
    original tree.  The name is marked assigned exactly when it was so
    before, or is captured and has such an identifier. *)
Theorem second_traversal_only_assigns_locations
    (st : Captures) (paths : list IdentifierPath) :
  let st' := second_traversal st paths in
  Map_keys (closure st') = Map_keys (closure st)
  /\ (forall n,
        Map_get n (closure st') =
        match Map_get n (closure st) with
        | None => None
        | Some node_ =>
            Some {| name := name node_;
                    loc := if location_assigned st n then loc node_
                           else match first_reference n paths with
                                | Some p => loc (path_node p)
                                | None => loc node_
                                end |}
        end)
  /\ (forall n, location_assigned st' n =
                location_assigned st n
                || (is_some (Map_get n (closure st))
                    && is_some (first_reference n paths))).
Proof.
  simpl. split; [apply second_traversal_keys|].
  split; [|intros n; apply second_traversal_assigned].
  intros n. rewrite second_traversal_get.
  destruct (Map_get n (closure st)) as [[nm l]|]; [|reflexivity].
  simpl. unfold relocate, set_loc.
  destruct (location_assigned st n); [reflexivity|].
  destruct (first_reference n paths); reflexivity.
Qed.

(* ================================================================== *)
(** ** Closure analyzer: the returned array *)
(* ================================================================== *)

Lemma keyed_by_name_set (k : js_string) (v : Identifier) (m : Map Identifier) :
  name v = k -> keyed_by_name m -> keyed_by_name (Map_set k v m).
Proof.
  intros Hv Hm. induction Hm as [|[k' v'] m Hk Hm IH]; simpl.
  - repeat constructor; exact Hv.
  - destruct (js_eqb k' k) eqn:E.
    + apply js_eqb_eq in E; subst k'. constructor; [exact Hv|exact Hm].
    + constructor; [exact Hk|exact IH].
Qed.

Lemma keyed_by_name_get (k : js_string) (v : Identifier) (m : Map Identifier) :
  keyed_by_name m -> Map_get k m = Some v -> name v = k.
Proof.
  intros Hm. induction Hm as [|[k' v'] m Hk Hm IH]; simpl; [discriminate|].
  destruct (js_eqb k' k) eqn:E; [|exact IH].
  apply js_eqb_eq in E; subst k'. intros [= ->]. exact Hk.
Qed.

Lemma keyed_by_name_values (m : Map Identifier) :
  keyed_by_name m -> map name (Map_values m) = Map_keys m.
Proof.
  unfold Map_values, Map_keys.
  induction 1 as [|[k v] m Hk Hm IH]; simpl; [reflexivity|].
  simpl in Hk. now rewrite Hk, IH.
Qed.

Lemma capture_visitor_keyed (globals : js_string -> bool)
    (fun_ : WorkletizableFunction) (st : Captures) (p : IdentifierPath) :
  keyed_by_name (closure st) ->
  keyed_by_name (closure (capture_visitor globals fun_ st p)).
Proof.
  intros H. unfold capture_visitor.
  destruct (captures globals fun_ p); simpl; [|exact H].
  now apply keyed_by_name_set.
Qed.

Lemma location_visitor_keyed (st : Captures) (p : IdentifierPath) :
  keyed_by_name (closure st) ->
  keyed_by_name (closure (location_visitor st p)).
Proof.
  intros H. unfold location_visitor.
  destruct (isReferencedIdentifier p); simpl; [|exact H].
  destruct (Map_get _ (closure st)) as [node_|] eqn:G; [|exact H].
  destruct (location_assigned st _); simpl; [exact H|].
  apply keyed_by_name_set; [|exact H].
  simpl. eapply keyed_by_name_get; eassumption.
Qed.

Lemma first_traversal_keyed (globals : js_string -> bool)
    (fun_ : WorkletizableFunction) (paths : list IdentifierPath) :
  keyed_by_name (closure (first_traversal globals fun_ paths)).
Proof.
  unfold first_traversal.
  assert (H : keyed_by_name (closure no_captures)) by constructor.
  revert H. generalize no_captures.
  induction paths as [|p paths IH]; intros st H; simpl; [exact H|].
  apply IH. now apply capture_visitor_keyed.
Qed.

Lemma second_traversal_keyed (paths : list IdentifierPath) (st : Captures) :
  keyed_by_name (closure st) ->
  keyed_by_name (closure (second_traversal st paths)).
Proof.
  unfold second_traversal.
  revert st; induction paths as [|p paths IH]; intros st H; simpl; [exact H|].
  apply IH. now apply location_visitor_keyed.
Qed.

Lemma first_occurrences_incl (names : list js_string) (n : js_string) :
  In n (first_occurrences names) -> In n names.
Proof.
  induction names as [|m names IH]; simpl; [auto|].
  intros [->|H]; [now left|].
  apply filter_In in H. right. apply IH. apply H.
Qed.

Lemma first_occurrences_NoDup (names : list js_string) :
  NoDup (first_occurrences names).
Proof.
  induction names as [|n names IH]; simpl; constructor.
  - intros H. apply filter_In in H. destruct H as [_ H].
    now rewrite js_eqb_refl in H.
  - now apply NoDup_filter.
Qed.

(** The names of the returned array are the keys the first traversal
    left, in their order. *)
Lemma makeArrayFromCapturedBindings_names (globals : js_string -> bool)
    (ast_ : BabelFile) (fun_ : NodePath) :
  map name (makeArrayFromCapturedBindings globals ast_ fun_) =
  first_occurrences
    (map path_name
       (filter (captures globals (node fun_)) (file_identifiers ast_))).
Proof.
  unfold makeArrayFromCapturedBindings.
  rewrite keyed_by_name_values
    by (apply second_traversal_keyed, first_traversal_keyed).
  rewrite second_traversal_keys. apply first_traversal_keys.
Qed.

(** C3, as amended.  The capture set is keyed by name and ordered by
    first discovery: its keys are the names of the capturing references
    of the lowered tree, each once, in the order of their first
    occurrences, and the returned array lists them in that same order.
    The node stored for a name after the first traversal is the node of
    the LAST capturing reference of that name: a later occurrence of a
    registered name keeps the name's position and replaces the stored
    node. *)
Theorem capture_set_first_order_last_node (globals : js_string -> bool)
    (ast_ : BabelFile) (fun_ : NodePath) :
  let capturing :=
    filter (captures globals (node fun_)) (file_identifiers ast_) in
  let st := first_traversal globals (node fun_) (file_identifiers ast_) in
  Map_keys (closure st) = first_occurrences (map path_name capturing)
  /\ (forall n, Map_get n (closure st) =
                option_map path_node (last_named n capturing))
  /\ map name (makeArrayFromCapturedBindings globals ast_ fun_) =
     first_occurrences (map path_name capturing)
  /\ NoDup (map name (makeArrayFromCapturedBindings globals ast_ fun_)).
Proof.
  simpl. split; [apply first_traversal_keys|].
  split; [intros n; apply first_traversal_get|].
  rewrite makeArrayFromCapturedBindings_names.
  split; [reflexivity|apply first_occurrences_NoDup].
Qed.

(** C3 as stated fails: in [() => { 'worklet'; return x + x; }] the
    second [x] is not ignored.  After the first [x] the set holds its
    node; visiting the second changes the set, which then holds the
    node of the second. *)
Lemma later_occurrence_replaces_stored_node :
  let fun_ := arrow_function (BlockStatement [] []) in
  let x1 := free_reference "x" 1 20 in
  let x2 := free_reference "x" 1 24 in
  let st1 := first_traversal no_globals fun_ [x1] in
  let st2 := capture_visitor no_globals fun_ st1 x2 in
  Map_get (js "x") (closure st1) = Some (path_node x1)
  /\ Map_get (js "x") (closure st2) = Some (path_node x2)
  /\ path_node x2 <> path_node x1
  /\ closure st2 <> closure st1.
Proof.
  simpl. repeat split; try reflexivity; intros H; discriminate H.
Qed.

(** C1 at its failing input.  In
    [() => { 'worklet'; return { [k]: 1 }; }] the computed key [k] is a
    referenced identifier that is no global, not the function's name, no
    member property, no shorthand key and declared in no scope, so the
    rule of the specification registers it; the visitor returns at the
    object-property test, which does not look at [computed], and the
    array of captured bindings is empty. *)
Example computed_key_is_not_captured :
  let fun_ := arrow_function (BlockStatement [] []) in
  let ast_ := {| file_identifiers := [computed_key_reference] |} in
  isReferencedIdentifier computed_key_reference = true
  /\ spec_captures no_globals fun_ computed_key_reference = true
  /\ captures no_globals fun_ computed_key_reference = false
  /\ makeArrayFromCapturedBindings no_globals ast_
       (path_of fun_ [computed_key_reference]) = [].
Proof. simpl. repeat split; reflexivity. Qed.

(* ================================================================== *)
(** ** Directive stripper *)
(* ================================================================== *)

Section NodeInduction.
Variable P : Node -> Prop.
Hypothesis P_identifier : forall i, P (IdentifierNode i).
Hypothesis P_function :
  forall t i key params body g a,
    (forall k, key = Some k -> P k) -> Forall P params -> P body ->
    P (FunctionNode t i key params body g a).
Hypothesis P_block :
  forall body directives, Forall P body -> P (BlockStatement body directives).
Hypothesis P_other :
  forall t children, Forall P children -> P (OtherNode t children).

Lemma Node_induction : forall n, P n.
Proof.
  refine (fix IH (n : Node) : P n :=
    let all := fix all (l : list Node) : Forall P l :=
      match l with
      | [] => Forall_nil P
      | x :: l' => Forall_cons x (IH x) (all l')
      end in
    match n with
    | IdentifierNode i => P_identifier i
    | FunctionNode t i key params body g a =>
        P_function t i g a _ (all params) (IH body)
    | BlockStatement body directives => P_block directives (all body)
    | OtherNode t children => P_other t (all children)
    end).
  destruct key as [k|]; intros k' E; [|discriminate E].
  injection E as <-. exact (IH k).
Qed.
End NodeInduction.

Lemma map_id_Forall {A : Type} (f : A -> A) (l : list A) :
  Forall (fun x => f x = x) l -> map f l = l.
Proof. induction 1; simpl; congruence. Qed.

Lemma map_ext_Forall {A B : Type} (f g : A -> B) (l : list A) :
  Forall (fun x => f x = g x) l -> map f l = map g l.
Proof. induction 1; simpl; congruence. Qed.

Lemma filter_all {A : Type} (f : A -> bool) (l : list A) :
  (forall x, f x = true) -> filter f l = l.
Proof.
  intros H; induction l as [|x l IH]; simpl; [reflexivity|].
  now rewrite H, IH.
Qed.

Lemma filter_flat_map {A B : Type} (f : B -> bool) (g : A -> list B)
    (l : list A) :
  filter f (flat_map g l) = flat_map (fun x => filter f (g x)) l.
Proof.
  induction l as [|x l IH]; simpl; [reflexivity|].
  now rewrite filter_app, IH.
Qed.

Lemma flat_map_map {A B C : Type} (f : A -> B) (g : B -> list C) (l : list A) :
  flat_map g (map f l) = flat_map (fun x => g (f x)) l.
Proof.
  induction l as [|x l IH]; simpl; [reflexivity|]. now rewrite IH.
Qed.

Lemma flat_map_ext_Forall {A B : Type} (f g : A -> list B) (l : list A) :
  Forall (fun x => f x = g x) l -> flat_map f l = flat_map g l.
Proof. induction 1; simpl; congruence. Qed.

(** Below a nested function the nearest function is never [fun]. *)
Lemma is_fun_nested (n : Node) (up : list Node) :
  up <> [] -> isFunction n = true ->
  is_fun (getFunctionParent (n :: up)) = false.
Proof.
  intros Hup Hn. simpl. rewrite Hn. simpl.
  destruct up; [congruence|reflexivity].
Qed.

Lemma is_fun_not_function (n : Node) (up : list Node) :
  isFunction n = false ->
  is_fun (getFunctionParent (n :: up)) = is_fun (getFunctionParent up).
Proof. intros Hn. simpl. now rewrite Hn. Qed.

Lemma is_fun_nonempty (up : list Node) :
  is_fun (getFunctionParent up) = true -> up <> [].
Proof. destruct up; [discriminate|discriminate]. Qed.

(** Where the nearest function is not [fun], the traversal changes
    nothing. *)
Lemma traverse_outside (n : Node) :
  forall up, up <> [] -> is_fun (getFunctionParent up) = false ->
  traverse worklet_directive_visitor up n = n.
Proof.
  induction n as [i|t i key params body g a IHkey IHparams IHbody
                 |body directives IHbody|t children IH]
    using Node_induction; intros up Hup Hout; simpl.
  - reflexivity.
  - assert (Hin : is_fun (getFunctionParent
               (FunctionNode t i key params body g a :: up)) = false)
      by (now apply is_fun_nested).
    assert (Hne : FunctionNode t i key params body g a :: up <> [])
      by discriminate.
    rewrite (IHbody _ Hne Hin). f_equal.
    + destruct key as [k|]; [|reflexivity].
      now rewrite (IHkey k eq_refl _ Hne Hin).
    + apply map_id_Forall. eapply Forall_impl; [|exact IHparams].
      intros x Hx. now apply Hx.
  - assert (Hin : is_fun (getFunctionParent
               (BlockStatement body directives :: up)) = false)
      by (now rewrite is_fun_not_function).
    f_equal.
    + apply map_id_Forall. eapply Forall_impl; [|exact IHbody].
      intros x Hx. apply Hx; [discriminate|exact Hin].
    + apply filter_all. intros d. unfold worklet_directive_visitor.
      cbn [literal_ancestors literal_value]. rewrite Hin.
      now rewrite andb_false_r.
  - f_equal. apply map_id_Forall. eapply Forall_impl; [|exact IH].
    intros x Hx. apply Hx; [discriminate|].
    now rewrite is_fun_not_function.
Qed.

(** Where the nearest function is [fun], the traversal is [strip_own]. *)
Lemma traverse_inside (n : Node) :
  forall up, is_fun (getFunctionParent up) = true ->
  traverse worklet_directive_visitor up n = strip_own n.
Proof.
  induction n as [i|t i key params body g a IHkey IHparams IHbody
                 |body directives IHbody|t children IH]
    using Node_induction; intros up Hin.
  - reflexivity.
  - simpl.
    assert (Hne : FunctionNode t i key params body g a :: up <> [])
      by discriminate.
    assert (Hout : is_fun (getFunctionParent
               (FunctionNode t i key params body g a :: up)) = false)
      by (apply is_fun_nested; [now apply is_fun_nonempty|reflexivity]).
    rewrite (traverse_outside body Hne Hout). f_equal.
    + destruct key as [k|]; [|reflexivity].
      now rewrite (traverse_outside k Hne Hout).
    + apply map_id_Forall, Forall_forall. intros x _.
      now apply traverse_outside.
  - simpl.
    assert (Hb : is_fun (getFunctionParent
               (BlockStatement body directives :: up)) = true)
      by (now rewrite is_fun_not_function).
    f_equal.
    + apply map_ext_Forall. eapply Forall_impl; [|exact IHbody].
      intros x Hx. now apply Hx.
    + apply filter_ext. intros d. unfold worklet_directive_visitor.
      cbn [literal_ancestors literal_value]. rewrite Hb.
      now rewrite andb_true_r.
  - simpl. f_equal. apply map_ext_Forall. eapply Forall_impl; [|exact IH].
    intros x Hx. apply Hx. now rewrite is_fun_not_function.
Qed.

Lemma removeWorkletDirective_strip_own (fun_ : WorkletizableFunction) :
  removeWorkletDirective fun_ = strip_own_function fun_.
Proof.
  unfold removeWorkletDirective, strip_own_function.
  assert (Hroot : is_fun (getFunctionParent [node_of fun_]) = true)
    by reflexivity.
  rewrite (traverse_inside (f_body fun_) _ Hroot). f_equal.
  - destruct (f_key fun_) as [k|]; simpl; [|reflexivity].
    now rewrite (traverse_inside k _ Hroot).
  - apply map_ext_Forall, Forall_forall. intros x _.
    now apply traverse_inside.
Qed.

Lemma strip_own_directives (n : Node) :
  own_directives (strip_own n) =
  filter (fun d => negb (is_worklet_directive d)) (own_directives n).
Proof.
  induction n as [i|t i key params body g a _ _ _
                 |body directives IHbody|t children IH]
    using Node_induction; simpl; try reflexivity.
  - rewrite filter_app, filter_flat_map, flat_map_map. f_equal.
    now apply flat_map_ext_Forall.
  - rewrite filter_flat_map, flat_map_map.
    now apply flat_map_ext_Forall.
Qed.

Lemma strip_own_nested_functions (n : Node) :
  nested_functions (strip_own n) = nested_functions n.
Proof.
  induction n as [i|t i key params body g a _ _ _
                 |body directives IHbody|t children IH]
    using Node_induction; simpl; try reflexivity.
  - rewrite flat_map_map. now apply flat_map_ext_Forall.
  - rewrite flat_map_map. now apply flat_map_ext_Forall.
Qed.

Lemma strip_own_rest (n : Node) :
  without_own_directives (strip_own n) = without_own_directives n.
Proof.
  induction n as [i|t i key params body g a _ _ _
                 |body directives IHbody|t children IH]
    using Node_induction; simpl; try reflexivity.
  - f_equal. rewrite map_map. now apply map_ext_Forall.
  - f_equal. rewrite map_map. now apply map_ext_Forall.
Qed.

(** C8.  [removeWorkletDirective] is the stripper of the specification:
    on the key, the parameters and the body of the function it is
    [strip_own], which rebuilds every node as it was except that a block
    lying in the function itself, outside every nested function, loses
    its ['worklet'] directives.  So (1) the directives the function
    holds for itself are, afterwards, those whose literal is not
    ['worklet'], in their order; (2) every nested function, with
    whatever directives it holds, is the same node afterwards; (3) the
    tree with the function's own directive lists left out is the same
    tree afterwards. *)
Theorem removeWorkletDirective_removes_own_worklet_directive
    (fun_ : WorkletizableFunction) :
  removeWorkletDirective fun_ = strip_own_function fun_
  /\ (forall n, own_directives (strip_own n) =
                filter (fun d => negb (js_eqb (directive_value d) (js "worklet")))
                  (own_directives n))
  /\ (forall n, nested_functions (strip_own n) = nested_functions n)
  /\ (forall n, without_own_directives (strip_own n) = without_own_directives n).
Proof.
  split; [apply removeWorkletDirective_strip_own|].
  split; [exact strip_own_directives|].
  split; [exact strip_own_nested_functions|exact strip_own_rest].
Qed.

(* ================================================================== *)
(** ** Naming resolver *)
(* ================================================================== *)








Section NamingFacts.
Variable host : Host.


(** The resolver reads the counter into the suffix, hands the string to
    [toIdentifier] and leaves the counter one higher. *)
Lemma makeWorkletName_raw (fun_ : WorkletizableFunction)
    (state : ReanimatedPluginPass) :
  makeWorkletName host fun_ state =
  (toIdentifier host (raw_worklet_name host fun_ state),
   increment_workletNumber state).
Proof.
  unfold makeWorkletName, raw_worklet_name, own_name,
    isObjectMethod, isFunctionDeclaration, isFunctionExpression.
  destruct (f_type fun_); simpl;
    try (destruct (f_id fun_); reflexivity);
    destruct (key_identifier fun_); reflexivity.
Qed.


(** Below 2^53 the counter advances by one. *)
Lemma increment_workletNumber_exact (state : ReanimatedPluginPass) :
  (workletNumber state < 2 ^ 53)%N ->
  workletNumber (increment_workletNumber state) = (workletNumber state + 1)%N.
Proof.
  intros H. cbn [increment_workletNumber workletNumber].
  unfold increment_double.
  apply N.ltb_lt in H. now rewrite H.
Qed.





End NamingFacts.

(* ================================================================== *)
(** ** Wrapper emitter *)
(* ================================================================== *)

Section FactoryFacts.
Variable host : Host.

(** The statements after the pushes and the unshift are those of the
    specification's order. *)
Lemma pushes_wrapper_statements (development metadata : bool)
    (functionName : js_string) (funExpression : Expression)
    (variables : list Identifier) (workletHash : Z) (initDataId : Identifier) :
  let functionIdentifier := identifier functionName in
  let statements :=
    [variableDeclaration "const"
       [variableDeclarator functionIdentifier funExpression];
     assign_member functionIdentifier "__closure" (closure_object variables);
     assign_member functionIdentifier "__workletHash"
       (numericLiteral workletHash)] in
  let statements :=
    if metadata
    then statements ++
         [assign_member functionIdentifier "__initData"
            (identifierNode initDataId)]
    else statements in
  let statements :=
    if development
    then (diagnostic_anchor (line_offset variables) :: statements) ++
         [assign_member functionIdentifier "__stackDetails"
            (identifierNode (identifier (js "_e")))]
    else statements in
  statements ++ [returnStatement (identifierNode functionIdentifier)] =
  wrapper_statements development metadata functionName funExpression
    variables workletHash initDataId.
Proof. destruct development, metadata; reflexivity. Qed.

(** When every assertion holds the factory returns, and what it leaves
    behind is [emitted]. *)
Lemma makeWorkletFactory_returns (fun_ : NodePath)
    (state : ReanimatedPluginPass) (filename_ : js_string)
    (transformed : BabelFileResult) (ast_ : BabelFile) :
  assertions_hold host fun_ state filename_ transformed ast_ ->
  makeWorkletFactory host fun_ state =
  Ok (emitted host fun_ state filename_ transformed ast_).
Proof.
  unfold assertions_hold, lowered.
  intros (Hf & Hfn & Ht & Ha & Hs & Hp & Hd & Hm).
  unfold makeWorkletFactory, emitted. rewrite Hf, Hfn. cbn [bind].
  rewrite Ht. cbn [bind]. rewrite Ha. cbn [bind].
  rewrite makeWorkletName_raw. cbn [fst].
  rewrite makeWorkletName_raw in Hs. cbn [fst] in Hs.
  destruct (buildWorkletString host ast_ (increment_workletNumber state) _ _ _)
    as [funString sourceMapString] eqn:B.
  cbn [fst snd] in *. rewrite Hs, Hp.
  fold (declared_function (removeWorkletDirective (node fun_))).
  rewrite Hd, Hm. cbn [assert bind negb].
  fold (closure_object
          (makeArrayFromCapturedBindings (globals_has host) ast_
             (with_node fun_ (removeWorkletDirective (node fun_))))).
  rewrite <- pushes_wrapper_statements.
  unfold init_data_id.
  change (omitNativeOnlyData (increment_workletNumber state))
    with (omitNativeOnlyData state).
  destruct (omitNativeOnlyData state), (isRelease host); reflexivity.
Qed.

(** Conversely, a call that returns passed every assertion. *)
Lemma makeWorkletFactory_Ok_inv (fun_ : NodePath)
    (state : ReanimatedPluginPass) (w : WorkletFactory) :
  makeWorkletFactory host fun_ state = Ok w ->
  exists filename_ transformed ast_,
    assertions_hold host fun_ state filename_ transformed ast_
    /\ w = emitted host fun_ state filename_ transformed ast_.
Proof.
  intros H.
  destruct (filename state) as [f|] eqn:Hf;
    [|unfold makeWorkletFactory in H; rewrite Hf in H; discriminate H].
  destruct (truthy f) eqn:Hfn;
    [|unfold makeWorkletFactory in H; rewrite Hf, Hfn in H; discriminate H].
  destruct (lowered host (removeWorkletDirective (node fun_)) f)
    as [t|] eqn:Ht;
    [|unfold makeWorkletFactory in H; unfold lowered in Ht;
      rewrite Hf, Hfn in H; cbn [bind] in H; rewrite Ht in H;
      discriminate H].
  destruct (ast t) as [a|] eqn:Ha;
    [|unfold makeWorkletFactory in H; unfold lowered in Ht;
      rewrite Hf, Hfn in H; cbn [bind] in H; rewrite Ht in H;
      cbn [bind] in H; rewrite Ha in H; discriminate H].
  exists f, t, a.
  assert (A : assertions_hold host fun_ state f t a).
  { unfold assertions_hold. repeat (split; [assumption|]).
    unfold makeWorkletFactory in H. unfold lowered in Ht.
    rewrite Hf, Hfn in H; cbn [bind] in H; rewrite Ht in H;
      cbn [bind] in H; rewrite Ha in H; cbn [bind] in H.
    rewrite makeWorkletName_raw in H |- *. cbn [fst].
    destruct (buildWorkletString host a (increment_workletNumber state) _ _ _)
      as [funString sourceMapString].
    cbn [fst].
    fold (declared_function (removeWorkletDirective (node fun_))) in H.
    destruct (truthy funString); [|discriminate H].
    destruct (parentPath_isProgram fun_ || has_topLevel_ancestor fun_);
      [|discriminate H].
    destruct (expression_isFunctionDeclaration _); [discriminate H|].
    destruct (expression_isObjectMethod _); [discriminate H|].
    repeat split. }
  split; [exact A|].
  rewrite (makeWorkletFactory_returns A) in H. now injection H.
Qed.

End FactoryFacts.

Section EmitterFacts.
Variable host : Host.

Lemma line_offset_cases (variables : list Identifier) :
  line_offset variables =
  match variables with
  | [] => 1%Z
  | _ :: _ => (1 - (Z.of_nat (List.length variables) + 2))%Z
  end.
Proof. destruct variables; reflexivity. Qed.

Lemma closure_object_properties (variables : list Identifier) :
  exists properties,
    closure_object variables = objectExpression properties
    /\ map property_key properties = map (fun v => Some (name v)) variables
    /\ Forall (fun p => property_is_shorthand p = true) properties.
Proof.
  unfold closure_object. eexists. split; [reflexivity|].
  split; induction variables as [|v variables IH]; simpl;
    try constructor; auto.
  now rewrite IH.
Qed.

Lemma wrapper_statements_no_initData (development : bool)
    (functionName : js_string) (funExpression : Expression)
    (variables : list Identifier) (workletHash : Z) (initDataId : Identifier) :
  Forall (fun s => assigned_member s <> Some (js "__initData"))
    (wrapper_statements development false functionName funExpression
       variables workletHash initDataId).
Proof.
  destruct development; cbn [wrapper_statements app];
    repeat constructor; cbn; discriminate.
Qed.

(** In release mode the metadata holds the code and, when there is one,
    the source map: neither the location nor the version. *)
Lemma init_data_properties_release (state : ReanimatedPluginPass)
    (filename_ funString : js_string) (sourceMapString : option js_string) :
  isRelease host = true ->
  map property_key
    (init_data_properties host state filename_ funString sourceMapString) =
  Some (js "code")
  :: match sourceMapString with
     | Some m => if truthy m then [Some (js "sourceMap")] else []
     | None => []
     end.
Proof.
  intros Hr. unfold init_data_properties. rewrite Hr. simpl.
  destruct sourceMapString as [m|]; [|reflexivity].
  destruct (truthy m); reflexivity.
Qed.

End EmitterFacts.

(** C5.  A call of the factory that returns leaves an anonymous function
    expression without parameters whose body is, in this order: in
    development mode the declaration of [_e]; the declaration of the
    synthesized function under the resolved name; the [__closure]
    assignment, whose object has one shorthand property per captured
    binding, keyed by its name; the [__workletHash] assignment; unless
    [omitNativeOnlyData] is set, the [__initData] assignment of the
    identifier under which the constant is hoisted; in development mode
    the [__stackDetails] assignment; the return of the named function. *)
Theorem wrapper_statements_in_order (host : Host) (fun_ : NodePath)
    (state : ReanimatedPluginPass) (w : WorkletFactory) :
  makeWorkletFactory host fun_ state = Ok w ->
  exists filename_ transformed ast_ properties,
    assertions_hold host fun_ state filename_ transformed ast_
    /\ let fun_node := removeWorkletDirective (node fun_) in
       let variables :=
         makeArrayFromCapturedBindings (globals_has host) ast_
           (with_node fun_ fun_node) in
       let functionName := fst (makeWorkletName host fun_node state) in
       let functionIdentifier := identifierNode (identifier functionName) in
       let built :=
         buildWorkletString host ast_ (increment_workletNumber state)
           variables functionName (map_ transformed) in
       let initDataId := init_data_id host (hash (fst built)) in
       let development := negb (isRelease host) in
       let metadata := negb (omitNativeOnlyData state) in
       newFun w =
       functionExpression None []
         (blockStatement
            ((if development
              then [diagnostic_anchor (line_offset variables)] else [])
             ++ [variableDeclaration "const"
                   [variableDeclarator (identifier functionName)
                      (declared_function fun_node)]]
             ++ [expressionStatement
                   (assignmentExpression "="
                      (memberExpression functionIdentifier
                         (identifierNode (identifier (js "__closure"))) false)
                      (objectExpression properties))]
             ++ [expressionStatement
                   (assignmentExpression "="
                      (memberExpression functionIdentifier
                         (identifierNode (identifier (js "__workletHash")))
                         false)
                      (numericLiteral (hash (fst built))))]
             ++ (if metadata
                 then [expressionStatement
                         (assignmentExpression "="
                            (memberExpression functionIdentifier
                               (identifierNode (identifier (js "__initData")))
                               false)
                            (identifierNode initDataId))]
                 else [])
             ++ (if development
                 then [expressionStatement
                         (assignmentExpression "="
                            (memberExpression functionIdentifier
                               (identifierNode
                                  (identifier (js "__stackDetails")))
                               false)
                            (identifierNode (identifier (js "_e"))))]
                 else [])
             ++ [returnStatement functionIdentifier]))
         false false
       /\ map property_key properties = map (fun v => Some (name v)) variables
       /\ Forall (fun p => property_is_shorthand p = true) properties
       /\ insertedBefore w =
          (if metadata
           then [variableDeclaration "const"
                   [variableDeclarator initDataId
                      (objectExpression
                         (init_data_properties host
                            (increment_workletNumber state) filename_
                            (fst built) (snd built)))]]
           else []).
Proof.
  intros H. apply makeWorkletFactory_Ok_inv in H.
  destruct H as (f & t & a & A & ->).
  destruct (closure_object_properties
              (makeArrayFromCapturedBindings (globals_has host) a
                 (with_node fun_ (removeWorkletDirective (node fun_)))))
    as (properties & E & Hkeys & Hshort).
  exists f, t, a, properties. split; [exact A|]. cbn zeta.
  split; [|split; [exact Hkeys|split; [exact Hshort|reflexivity]]].
  unfold emitted, wrapper_statements, assign_member. cbn [newFun].
  rewrite E. reflexivity.
Qed.

(** C9.  In development mode the body of the wrapper starts with the
    declaration of [_e], an array of [new global.Error()], the line
    offset and the column correction -27; the line offset is 1 when
    nothing is captured and [1 - (n + 2)] for [n >= 1] captured
    variables. *)
Theorem diagnostic_anchor_offsets (host : Host) (fun_ : NodePath)
    (state : ReanimatedPluginPass) (w : WorkletFactory) :
  isRelease host = false ->
  makeWorkletFactory host fun_ state = Ok w ->
  exists filename_ transformed ast_ rest,
    assertions_hold host fun_ state filename_ transformed ast_
    /\ let variables :=
         makeArrayFromCapturedBindings (globals_has host) ast_
           (with_node fun_ (removeWorkletDirective (node fun_))) in
       let n := Z.of_nat (List.length variables) in
       wrapper_body (newFun w) =
       variableDeclaration "const"
         [variableDeclarator (identifier (js "_e"))
            (arrayExpression
               [newExpression
                  (memberExpression
                     (identifierNode (identifier (js "global")))
                     (identifierNode (identifier (js "Error"))) false)
                  [];
                numericLiteral (if Z.eqb n 0 then 1 else 1 - (n + 2))%Z;
                numericLiteral (-27)%Z])]
       :: rest.
Proof.
  intros Hr H. apply makeWorkletFactory_Ok_inv in H.
  destruct H as (f & t & a & A & ->).
  exists f, t, a, (tl (wrapper_body (newFun (emitted host fun_ state f t a)))).
  split; [exact A|].
  cbn zeta. unfold emitted, wrapper_statements. cbn [newFun wrapper_body].
  rewrite Hr. cbn [negb app tl]. f_equal. unfold diagnostic_anchor.
  rewrite line_offset_cases.
  destruct (makeArrayFromCapturedBindings _ _ _) as [|v vs]; [reflexivity|].
  replace (Z.of_nat (List.length (v :: vs)) =? 0)%Z with false
    by (symmetry; apply Z.eqb_neq; cbn [List.length]; lia).
  reflexivity.
Qed.

(** C4.  With [omitNativeOnlyData] set, in release and in development
    mode alike, a call that returns hoists no constant and its wrapper
    has no [__initData] assignment.  With release mode set and
    [omitNativeOnlyData] not set, it hoists one constant, which the
    wrapper's [__initData] assignment names, and the object of that
    constant holds [code] and, when there is a source map, [sourceMap]:
    neither [location] nor [version]. *)
Theorem metadata_suppression (host : Host) (fun_ : NodePath)
    (state : ReanimatedPluginPass) (w : WorkletFactory) :
  makeWorkletFactory host fun_ state = Ok w ->
  (omitNativeOnlyData state = true ->
   insertedBefore w = []
   /\ Forall (fun s => assigned_member s <> Some (js "__initData"))
        (wrapper_body (newFun w)))
  /\ (omitNativeOnlyData state = false -> isRelease host = true ->
      exists initDataId properties,
        insertedBefore w =
        [variableDeclaration "const"
           [variableDeclarator initDataId (objectExpression properties)]]
        /\ In (assign_member
                 (identifier
                    (fst (makeWorkletName host
                            (removeWorkletDirective (node fun_)) state)))
                 "__initData" (identifierNode initDataId))
             (wrapper_body (newFun w))
        /\ In (Some (js "code")) (map property_key properties)
        /\ ~ In (Some (js "location")) (map property_key properties)
        /\ ~ In (Some (js "version")) (map property_key properties)).
Proof.
  intros H. apply makeWorkletFactory_Ok_inv in H.
  destruct H as (f & t & a & _ & ->). split.
  - intros Ho. unfold emitted. cbn [insertedBefore newFun wrapper_body].
    rewrite Ho. cbn [negb]. split; [reflexivity|].
    apply wrapper_statements_no_initData.
  - intros Ho Hr. unfold emitted. cbn [insertedBefore newFun wrapper_body].
    rewrite Ho, Hr. cbn [negb]. do 2 eexists.
    split; [reflexivity|]. split.
    + unfold wrapper_statements. cbn [app]. do 3 right. left. reflexivity.
    + rewrite init_data_properties_release by exact Hr.
      split; [now left|].
      split; intros [E|E]; try discriminate E;
        destruct (snd (buildWorkletString _ _ _ _ _ _)) as [m|];
        try destruct (truthy m); simpl in E;
        repeat (destruct E as [E|E]; try discriminate E); auto.
Qed.



(** At 2^53 the counter no longer advances: [state.workletNumber++]
    leaves it where it is, and two worklets of the file are handed the
    same string. *)
Lemma counter_stalls_at_2_pow_53 :
  let state := state_of "/app/src/App.js" (2 ^ 53) in
  workletNumber (snd (makeWorkletName dev_host (node sample_fun) state)) =
  (2 ^ 53)%N
  /\ ~ NoDup (raw_worklet_names dev_host [node sample_fun; node sample_fun]
                state).
Proof.
  cbn zeta. split; [vm_compute; reflexivity|].
  assert (E : raw_worklet_names dev_host [node sample_fun; node sample_fun]
                (state_of "/app/src/App.js" (2 ^ 53)) =
              [js "App.js9007199254740992"; js "App.js9007199254740992"])
    by (vm_compute; reflexivity).
  rewrite E. intros H. inversion H as [|? ? Hn _]. apply Hn. now left.
Qed.

(** The sanitizer on the names of the sample runs. *)
Example babel_toIdentifier_samples :
  babel_toIdentifier no_tables (js "App.js1") = js "AppJs1"
  /\ babel_toIdentifier no_tables (js "add_App.js2") = js "add_AppJs2"
  /\ babel_toIdentifier no_tables (js "lib_index.js7") = js "lib_indexJs7"
  /\ babel_toIdentifier no_tables (js "1231") = js "_"
  /\ babel_toIdentifier no_tables (js "if") = js "_if".
Proof. vm_compute. repeat split; reflexivity. Qed.

(* ================================================================== *)
(** ** Sample runs *)
(* ================================================================== *)

Lemma wrapper_statements_in_order_witness :
  makeWorkletFactory dev_host sample_fun (sample_state false) =
  Ok (sample_emitted dev_host false)
  /\ map assigned_member (wrapper_body (newFun (sample_emitted dev_host false))) =
     [None; None; Some (js "__closure"); Some (js "__workletHash");
      Some (js "__initData"); Some (js "__stackDetails"); None].
Proof.
  assert (H : makeWorkletFactory dev_host sample_fun (sample_state false) =
              Ok (sample_emitted dev_host false))
    by (vm_compute; reflexivity).
  split; [exact H|].
  destruct (wrapper_statements_in_order _ _ _ H)
    as (f & t & a & properties & _ & E & _).
  rewrite E. reflexivity.
Defined.

Lemma diagnostic_anchor_offsets_witness :
  isRelease dev_host = false
  /\ makeWorkletFactory dev_host sample_fun (sample_state false) =
     Ok (sample_emitted dev_host false)
  /\ hd_error (wrapper_body (newFun (sample_emitted dev_host false))) =
     Some (diagnostic_anchor (-2)).
Proof.
  assert (H : makeWorkletFactory dev_host sample_fun (sample_state false) =
              Ok (sample_emitted dev_host false))
    by (vm_compute; reflexivity).
  split; [reflexivity|]. split; [exact H|].
  destruct (diagnostic_anchor_offsets dev_host sample_fun (sample_state false)
              eq_refl H)
    as (f & t & a & rest & (_ & _ & Ht & Ha & _) & E).
  vm_compute in Ht. injection Ht as <-.
  cbn in Ha. injection Ha as <-.
  rewrite E. reflexivity.
Defined.

Lemma metadata_suppression_witness :
  (makeWorkletFactory dev_host sample_fun (sample_state true) =
   Ok (sample_emitted dev_host true)
   /\ insertedBefore (sample_emitted dev_host true) = [])
  /\ (makeWorkletFactory release_host sample_fun (sample_state false) =
      Ok (sample_emitted release_host false)
      /\ exists initDataId properties,
           insertedBefore (sample_emitted release_host false) =
           [variableDeclaration "const"
              [variableDeclarator initDataId (objectExpression properties)]]
           /\ ~ In (Some (js "location")) (map property_key properties)
           /\ ~ In (Some (js "version")) (map property_key properties)).
Proof.
  assert (H1 : makeWorkletFactory dev_host sample_fun (sample_state true) =
               Ok (sample_emitted dev_host true))
    by (vm_compute; reflexivity).
  assert (H2 : makeWorkletFactory release_host sample_fun (sample_state false) =
               Ok (sample_emitted release_host false))
    by (vm_compute; reflexivity).
  split; (split; [assumption|]).
  - exact (proj1 (proj1 (metadata_suppression _ _ _ H1) eq_refl)).
  - destruct (proj2 (metadata_suppression _ _ _ H2) eq_refl eq_refl)
      as (i & ps & E & _ & _ & Hl & Hv).
    exists i, ps. repeat split; assumption.
Defined.


(** The names of three worklets of [/app/src/App.js], the counter at 1:
    two arrow functions around a declaration named [add]. *)
Example sample_names :
  fst (name_worklets dev_host [node sample_fun; add_function; node sample_fun]
         (sample_state false)) =
  [js "App.js1"; js "add_App.js2"; js "App.js3"].
Proof. vm_compute. reflexivity. Qed.

(** A file below [node_modules] carries the library's name. *)
Example sample_library_name :
  fst (makeWorkletName dev_host (node sample_fun)
         {| filename := Some (js "/app/node_modules/lib/src/index.js");
            cwd := js "/app";
            relativeSourceLocation := false;
            omitNativeOnlyData := false;
            workletNumber := 7 |}) =
  js "lib_index.js7".
Proof. vm_compute. reflexivity. Qed.

(** The stripper on [add_function]: the function's own ['worklet'] goes,
    ['use strict'] and the nested function's ['worklet'] stay. *)
Example sample_strip :
  f_body (removeWorkletDirective add_function) =
  BlockStatement
    [OtherNode "VariableDeclaration"
       [OtherNode "VariableDeclarator"
          [IdentifierNode (identifier (js "g")); nested_worklet]]]
    [{| directive_value := js "use strict" |}].
Proof. vm_compute. reflexivity. Qed.

(** The captured bindings of [sample_fun]: one [x], its node given the
    location of the first [x] of the original function. *)
Example sample_captures :
  makeArrayFromCapturedBindings no_globals sample_lowered sample_fun =
  [{| name := js "x"; loc := loc_at 7 30 |}].
Proof. vm_compute. reflexivity. Qed.

(* ################################################################## *)
(** * Part III: further properties of the code *)
(* ################################################################## *)

(* ================================================================== *)
(** ** The hash tells apart strings that differ in one code unit *)
(* ================================================================== *)

Section HashSensitivity.
Local Open Scope Z_scope.

Lemma pow2_divide (n m : Z) : 0 <= n <= m -> (2 ^ n | 2 ^ m).
Proof.
  intros H. exists (2 ^ (m - n)).
  rewrite <- Z.pow_add_r by lia. f_equal. lia.
Qed.

Lemma ToInt32_shift (x : Z) : exists k, ToInt32 x = x + k * 2 ^ 32.
Proof.
  exists (- ((x + 2 ^ 31) / 2 ^ 32)). unfold ToInt32.
  pose proof (Z.div_mod (x + 2 ^ 31) (2 ^ 32) ltac:(lia)). lia.
Qed.

Lemma ToUint32_shift (x : Z) : exists k, ToUint32 x = x + k * 2 ^ 32.
Proof.
  exists (- (x / 2 ^ 32)). unfold ToUint32.
  pose proof (Z.div_mod x (2 ^ 32) ltac:(lia)). lia.
Qed.

Lemma divide_shift (m x y kx ky : Z) :
  (m | 2 ^ 32) ->
  ((m | (x + kx * 2 ^ 32) - (y + ky * 2 ^ 32)) <-> (m | x - y)).
Proof.
  intros Hm.
  assert (Hk : (m | (kx - ky) * 2 ^ 32)) by (now apply Z.divide_mul_r).
  replace ((x + kx * 2 ^ 32) - (y + ky * 2 ^ 32))
    with ((kx - ky) * 2 ^ 32 + (x - y)) by ring.
  split; intros H.
  - apply (Z.divide_add_cancel_r m ((kx - ky) * 2 ^ 32)); assumption.
  - now apply Z.divide_add_r.
Qed.

Lemma part_at_ToInt32 (j x y : Z) :
  0 <= j < 32 -> part_at j x y -> part_at j (ToInt32 x) (ToInt32 y).
Proof.
  intros Hj [Hl Hh].
  destruct (ToInt32_shift x) as [kx ->], (ToInt32_shift y) as [ky ->].
  split.
  - apply divide_shift; [apply pow2_divide; lia|exact Hl].
  - intros H. apply Hh. revert H.
    apply divide_shift. apply pow2_divide; lia.
Qed.

Lemma part_at_ToUint32 (j x y : Z) :
  0 <= j < 32 -> part_at j x y -> part_at j (ToUint32 x) (ToUint32 y).
Proof.
  intros Hj [Hl Hh].
  destruct (ToUint32_shift x) as [kx ->], (ToUint32_shift y) as [ky ->].
  split.
  - apply divide_shift; [apply pow2_divide; lia|exact Hl].
  - intros H. apply Hh. revert H.
    apply divide_shift. apply pow2_divide; lia.
Qed.

Lemma part_at_mul33 (j x y : Z) :
  0 <= j -> part_at j x y -> part_at j (x * 33) (y * 33).
Proof.
  intros Hj [Hl Hh]. unfold part_at.
  replace (x * 33 - y * 33) with (33 * (x - y)) by ring.
  split.
  - exact (Z.divide_mul_r _ 33 _ Hl).
  - intros H. apply Hh.
    assert (H32 : (2 ^ (j + 1) | 32 * (x - y))).
    { destruct Hl as [k Hk]. exists (16 * k).
      rewrite Hk, Z.pow_add_r by lia. ring. }
    replace (x - y) with (33 * (x - y) - 32 * (x - y)) by ring.
    now apply Z.divide_sub_r.
Qed.

Lemma mod_pow2_lxor (n a b : Z) :
  0 <= n -> (Z.lxor a b) mod 2 ^ n = Z.lxor (a mod 2 ^ n) (b mod 2 ^ n).
Proof.
  intros Hn. rewrite <- !Z.land_ones by exact Hn.
  apply Z.bits_inj'; intros i Hi.
  rewrite Z.land_spec, !Z.lxor_spec, !Z.land_spec.
  destruct (Z.testbit (Z.ones n) i);
    rewrite ?andb_true_r, ?andb_false_r; reflexivity.
Qed.

Lemma divide_lxor (n x y c : Z) :
  0 <= n -> ((2 ^ n | Z.lxor x c - Z.lxor y c) <-> (2 ^ n | x - y)).
Proof.
  intros Hn.
  assert (E : forall a b, (2 ^ n | a - b) <-> a mod 2 ^ n = b mod 2 ^ n).
  { intros a b. rewrite Z.cong_iff_ex. reflexivity. }
  rewrite !E, !mod_pow2_lxor by exact Hn. split; intros H.
  - apply (f_equal (fun z => Z.lxor z (c mod 2 ^ n))) in H.
    now rewrite !Z.lxor_assoc, Z.lxor_nilpotent, !Z.lxor_0_r in H.
  - now rewrite H.
Qed.

Lemma part_at_lxor (j x y c : Z) :
  0 <= j -> part_at j x y -> part_at j (Z.lxor x c) (Z.lxor y c).
Proof.
  intros Hj [Hl Hh]. split.
  - apply divide_lxor; [lia|exact Hl].
  - intros H. apply Hh. revert H. apply divide_lxor. lia.
Qed.

Lemma part_at_round (j h h' : Z) (c : N) :
  0 <= j < 32 -> part_at j h h' -> part_at j (round h c) (round h' c).
Proof.
  intros Hj H. unfold round, bitxor.
  apply part_at_lxor; [lia|].
  apply part_at_ToInt32; [exact Hj|].
  apply part_at_mul33; [lia|exact H].
Qed.

Lemma part_at_fold (j : Z) (l : js_string) (h h' : Z) :
  0 <= j < 32 -> part_at j h h' ->
  part_at j (fold_left round l h) (fold_left round l h').
Proof.
  intros Hj. revert h h'; induction l as [|c l IH]; intros h h' H; simpl.
  - exact H.
  - apply IH. now apply part_at_round.
Qed.

(** Two different numbers below 2^n part at some bit below [n]. *)
Lemma part_at_exists (n : nat) (c c' : Z) :
  ~ (2 ^ Z.of_nat n | c - c') ->
  exists j, 0 <= j < Z.of_nat n /\ part_at j c c'.
Proof.
  induction n as [|n IH]; intros H.
  - exfalso. apply H. simpl. apply Z.divide_1_l.
  - assert (Hdec : (2 ^ Z.of_nat n | c - c') \/ ~ (2 ^ Z.of_nat n | c - c')).
    { rewrite <- Z.mod_divide by lia.
      destruct (Z.eq_dec ((c - c') mod 2 ^ Z.of_nat n) 0); auto. }
    destruct Hdec as [D|D].
    + exists (Z.of_nat n). split; [lia|]. split; [exact D|].
      replace (Z.of_nat n + 1) with (Z.of_nat (S n)) by lia. exact H.
    + destruct (IH D) as (j & Hj & P). exists j. split; [lia|exact P].
Qed.

Lemma part_at_first_round (j a : Z) (c c' : N) :
  0 <= j < 32 -> part_at j (Z.of_N c) (Z.of_N c') ->
  part_at j (round a c) (round a c').
Proof.
  intros Hj H. unfold round, bitxor.
  rewrite (Z.lxor_comm _ (ToInt32 (Z.of_N c))),
    (Z.lxor_comm _ (ToInt32 (Z.of_N c'))).
  apply part_at_lxor; [lia|]. now apply part_at_ToInt32.
Qed.

(** Accumulators that part at a bit give different results. *)
Lemma part_at_result (j h1 h1' h2 h2' : Z) :
  0 <= j < 32 -> part_at j h1 h1' -> part_at j h2 h2' ->
  ToUint32 h1 * 4096 + ToUint32 h2 <> ToUint32 h1' * 4096 + ToUint32 h2'.
Proof.
  intros Hj P1 P2 E.
  apply part_at_ToUint32 in P1; [|exact Hj].
  apply part_at_ToUint32 in P2; [|exact Hj].
  destruct P1 as [[k Hk] _], P2 as [_ Hh]. apply Hh.
  replace (ToUint32 h2 - ToUint32 h2')
    with (- k * 2 ^ 11 * (2 ^ j * 2)) by lia.
  replace (2 ^ (j + 1)) with (2 ^ j * 2)
    by (rewrite Z.pow_add_r by lia; reflexivity).
  apply Z.divide_factor_r.
Qed.

(** X1.  Two strings that differ in exactly one code unit have different
    hashes, wherever that code unit stands. *)
Theorem hash_one_code_unit (before after : js_string) (c c' : N) :
  code_unit c -> code_unit c' -> c <> c' ->
  hash (before ++ c :: after) <> hash (before ++ c' :: after).
Proof.
  unfold code_unit. intros Hc Hc' Hne.
  rewrite !hash_unfold, !rev_app_distr. simpl.
  rewrite <- !app_assoc, !fold_left_app. simpl.
  destruct (@part_at_exists 16 (Z.of_N c) (Z.of_N c')) as (j & Hj & P).
  { intros [k Hk]. apply Hne.
    assert (k = 0) by (change (2 ^ Z.of_nat 16) with 65536 in Hk; lia).
    lia. }
  assert (Hj' : 0 <= j < 32) by lia.
  apply (@part_at_result j); [exact Hj'| |];
    apply part_at_fold; try exact Hj'; now apply part_at_first_round.
Qed.

End HashSensitivity.

Lemma hash_one_code_unit_witness :
  code_unit 97 /\ code_unit 98 /\ 97%N <> 98%N
  /\ hash (js "x" ++ 97%N :: js "yz") <> hash (js "x" ++ 98%N :: js "yz").
Proof.
  assert (H1 : code_unit 97) by reflexivity.
  assert (H2 : code_unit 98) by reflexivity.
  assert (H3 : 97%N <> 98%N) by discriminate.
  repeat split; try assumption.
  exact (@hash_one_code_unit (js "x") (js "yz") 97 98 H1 H2 H3).
Defined.

(* ================================================================== *)
(** ** The directive stripper, applied twice or where nothing is to strip *)
(* ================================================================== *)

Lemma filter_idem {A : Type} (f : A -> bool) (l : list A) :
  filter f (filter f l) = filter f l.
Proof.
  rewrite filter_filter. apply filter_ext. intros x. now destruct (f x).
Qed.

Lemma filter_all_Forall {A : Type} (f : A -> bool) (l : list A) :
  Forall (fun x => f x = true) l -> filter f l = l.
Proof.
  induction 1 as [|x l Hx Hl IH]; simpl; [reflexivity|].
  now rewrite Hx, IH.
Qed.

Lemma strip_own_idem (n : Node) : strip_own (strip_own n) = strip_own n.
Proof.
  induction n as [i|t i key params body g a _ _ _
                 |body directives IHbody|t children IH]
    using Node_induction; simpl; try reflexivity.
  - rewrite filter_idem, map_map. f_equal. now apply map_ext_Forall.
  - rewrite map_map. f_equal. now apply map_ext_Forall.
Qed.

Lemma strip_own_nothing (n : Node) :
  Forall (fun d => is_worklet_directive d = false) (own_directives n) ->
  strip_own n = n.
Proof.
  induction n as [i|t i key params body g a _ _ _
                 |body directives IHbody|t children IH]
    using Node_induction; simpl; intros H; try reflexivity.
  - apply Forall_app in H. destruct H as [Hd Hb]. f_equal.
    + apply map_id_Forall. rewrite Forall_forall in *.
      intros x Hx. apply IHbody; [exact Hx|].
      apply Forall_forall. intros d Hd'. apply Hb.
      apply in_flat_map. eauto.
    + apply filter_all_Forall. eapply Forall_impl; [|exact Hd].
      intros d E. cbn beta. now rewrite E.
  - f_equal. apply map_id_Forall. rewrite Forall_forall in *.
    intros x Hx. apply IH; [exact Hx|].
    apply Forall_forall. intros d Hd'. apply H.
    apply in_flat_map. eauto.
Qed.

(** X2.  Stripping is idempotent: a second pass of
    [removeWorkletDirective] over a stripped function changes nothing. *)
Theorem removeWorkletDirective_idempotent (fun_ : WorkletizableFunction) :
  removeWorkletDirective (removeWorkletDirective fun_) =
  removeWorkletDirective fun_.
Proof.
  rewrite !removeWorkletDirective_strip_own.
  unfold strip_own_function. simpl. f_equal.
  - destruct (f_key fun_); simpl; [|reflexivity].
    now rewrite strip_own_idem.
  - rewrite map_map. apply map_ext. intros n. apply strip_own_idem.
  - apply strip_own_idem.
Qed.

(** X3.  A function that holds no ['worklet'] directive of its own (its
    nested functions may hold some) is returned as it is. *)
Theorem removeWorkletDirective_nothing_to_strip (fun_ : WorkletizableFunction) :
  Forall (fun d => directive_value d <> js "worklet")
    (function_own_directives fun_) ->
  removeWorkletDirective fun_ = fun_.
Proof.
  intros H. rewrite removeWorkletDirective_strip_own.
  assert (H' : Forall (fun d => is_worklet_directive d = false)
                 (function_own_directives fun_)).
  { eapply Forall_impl; [|exact H]. intros d Hd.
    unfold is_worklet_directive. now apply js_eqb_neq. }
  unfold function_own_directives in H'.
  apply Forall_app in H'. destruct H' as [Hk H'].
  apply Forall_app in H'. destruct H' as [Hp Hb].
  destruct fun_ as [t i key params body g a].
  unfold strip_own_function. simpl in *. f_equal.
  - destruct key as [k|]; simpl; [|reflexivity].
    now rewrite strip_own_nothing.
  - apply map_id_Forall, Forall_forall. intros n Hn.
    apply strip_own_nothing, Forall_forall. intros d Hd.
    rewrite Forall_forall in Hp. apply Hp. apply in_flat_map. eauto.
  - now apply strip_own_nothing.
Qed.

Lemma removeWorkletDirective_nothing_to_strip_witness :
  let fun_ :=
    arrow_function
      (BlockStatement [nested_worklet]
         [{| directive_value := js "use strict" |}]) in
  Forall (fun d => directive_value d <> js "worklet")
    (function_own_directives fun_)
  /\ removeWorkletDirective fun_ = fun_.
Proof.
  intros fun_.
  assert (H : Forall (fun d => directive_value d <> js "worklet")
                (function_own_directives fun_))
    by (repeat constructor; discriminate).
  split; [exact H|].
  exact (removeWorkletDirective_nothing_to_strip fun_ H).
Defined.

(* ================================================================== *)
(** ** The captured bindings, end to end *)
(* ================================================================== *)

Lemma first_occurrences_In (names : list js_string) (n : js_string) :
  In n (first_occurrences names) <-> In n names.
Proof.
  split; [apply first_occurrences_incl|].
  induction names as [|m names IH]; simpl; [auto|].
  intros [->|H]; [now left|].
  destruct (js_eqb m n) eqn:E.
  - apply js_eqb_eq in E. now left.
  - right. apply filter_In. split; [now apply IH|now rewrite E].
Qed.

Lemma has_binding_In (n : js_string) (s : Scope) :
  has_binding n s = true <-> In n s.
Proof.
  unfold has_binding. rewrite existsb_exists. split.
  - intros (m & Hm & E). apply js_eqb_eq in E. now subst.
  - intros H. exists n. split; [exact H|apply js_eqb_refl].
Qed.

Lemma scope_chain_binds_iff (n : js_string) (chain : list Scope) :
  scope_chain_binds n chain = true <-> exists s, In s chain /\ In n s.
Proof.
  induction chain as [|s chain IH]; simpl.
  - split; [discriminate|intros (s & [] & _)].
  - destruct (has_binding n s) eqn:E.
    + split; [|reflexivity]. intros _. exists s.
      split; [now left|now apply has_binding_In].
    + rewrite IH. split.
      * intros (s' & Hs & Hn). exists s'. split; [now right|exact Hn].
      * intros (s' & [<-|Hs] & Hn); [|now exists s'].
        apply has_binding_In in Hn. congruence.
Qed.

(** X4.  A name is among the captured bindings exactly when the lowered
    tree holds a referenced identifier of that name that is no
    allow-listed global, does not carry the name in the function's [id],
    is not the non-computed property of a member expression, is not a
    non-value child of an object property of an object expression, and
    whose name no scope of its chain, the outermost included,
    declares. *)
Theorem captured_names_iff (globals : js_string -> bool) (ast_ : BabelFile)
    (fun_ : NodePath) (n : js_string) :
  In n (map name (makeArrayFromCapturedBindings globals ast_ fun_)) <->
  exists p,
    In p (file_identifiers ast_)
    /\ name (path_node p) = n
    /\ isReferencedIdentifier p = true
    /\ globals n = false
    /\ (forall id, f_id (node fun_) = Some id -> name id <> n)
    /\ path_parent p <> MemberExpressionParent true false
    /\ ~ (grandparent_isObjectExpression p = true
          /\ exists computed shorthand,
               path_parent p = ObjectPropertyParent false computed shorthand)
    /\ ~ (exists s, In s (path_scope p) /\ In n s).
Proof.
  rewrite makeArrayFromCapturedBindings_names, first_occurrences_In,
    in_map_iff.
  split.
  - intros (p & <- & Hp). apply filter_In in Hp. destruct Hp as [Hin Hc].
    apply captures_true_iff in Hc.
    destruct Hc as (Hr & Hg & Ho & Hm & Hk & Hs).
    exists p. unfold path_name in *.
    split; [exact Hin|]. split; [reflexivity|].
    split; [exact Hr|]. split; [exact Hg|].
    split; [|split; [|split]].
    + intros id Hid E. unfold is_own_name in Ho. rewrite Hid in Ho.
      apply js_eqb_neq in Ho. contradiction.
    + intros E. rewrite E in Hm. discriminate Hm.
    + intros (Hgp & c & s & E).
      unfold is_object_property_non_value in Hk.
      rewrite E, Hgp in Hk. discriminate Hk.
    + intros H. apply scope_chain_binds_iff in H. congruence.
  - intros (p & Hin & <- & Hr & Hg & Ho & Hm & Hk & Hs).
    exists p. split; [reflexivity|]. apply filter_In. split; [exact Hin|].
    apply captures_true_iff. unfold path_name.
    split; [exact Hr|]. split; [exact Hg|].
    split; [|split; [|split]].
    + unfold is_own_name. destruct (f_id (node fun_)) as [id|] eqn:E;
        [|reflexivity].
      apply js_eqb_neq. now apply Ho.
    + destruct (path_parent p) as [[|] [|]| |]; try reflexivity.
      now contradiction Hm.
    + unfold is_object_property_non_value.
      destruct (path_parent p) as [| v c s |] eqn:E; try reflexivity.
      destruct v; [apply andb_false_r|].
      destruct (grandparent_isObjectExpression p) eqn:G; [|reflexivity].
      exfalso. apply Hk. split; [reflexivity|]. exists c, s. reflexivity.
    + destruct (scope_chain_binds _ _) eqn:E; [|reflexivity].
      exfalso. apply Hs. now apply scope_chain_binds_iff.
Qed.

Lemma Map_get_In {V : Type} (k : js_string) (v : V) (m : Map V) :
  NoDup (Map_keys m) -> In (k, v) m -> Map_get k m = Some v.
Proof.
  unfold Map_keys.
  induction m as [|[k' v'] m IH]; simpl; intros Hnd H; [contradiction|].
  destruct H as [E|H].
  - injection E as -> ->. now rewrite js_eqb_refl.
  - inversion Hnd as [|? ? Hk Hm]; subst.
    destruct (js_eqb k' k) eqn:E; [|now apply IH].
    apply js_eqb_eq in E; subst k'. exfalso. apply Hk.
    apply in_map_iff. now exists (k, v).
Qed.

(** X5.  Every identifier of the returned array comes from the last
    capturing reference of its name in the lowered tree, and carries the
    location of the first referenced identifier of that name in the
    original function; when the original function has none, it keeps
    the location it has in the lowered tree. *)
Theorem captured_bindings_located (globals : js_string -> bool)
    (ast_ : BabelFile) (fun_ : NodePath) (v : Identifier) :
  In v (makeArrayFromCapturedBindings globals ast_ fun_) ->
  exists q,
    last_named (name v)
      (filter (captures globals (node fun_)) (file_identifiers ast_)) = Some q
    /\ name v = name (path_node q)
    /\ loc v =
       match first_reference (name v) (fun_identifiers fun_) with
       | Some p => loc (path_node p)
       | None => loc (path_node q)
       end.
Proof.
  unfold makeArrayFromCapturedBindings, Map_values. intros H.
  apply in_map_iff in H. destruct H as ([k v'] & E & Hin).
  simpl in E; subst v'.
  set (st1 := first_traversal globals (node fun_) (file_identifiers ast_)) in *.
  assert (Hkeyed : keyed_by_name (closure (second_traversal st1 (fun_identifiers fun_))))
    by apply second_traversal_keyed, first_traversal_keyed.
  assert (Hk : name v = k).
  { unfold keyed_by_name in Hkeyed. rewrite Forall_forall in Hkeyed.
    exact (Hkeyed _ Hin). }
  subst k.
  assert (Hget : Map_get (name v)
                   (closure (second_traversal st1 (fun_identifiers fun_))) =
                 Some v).
  { apply Map_get_In; [|exact Hin].
    rewrite second_traversal_keys. unfold st1.
    rewrite first_traversal_keys. apply first_occurrences_NoDup. }
  rewrite second_traversal_get in Hget. unfold st1 in Hget.
  rewrite first_traversal_get in Hget.
  destruct (last_named (name v) _) as [q|]; [|discriminate Hget].
  exists q. split; [reflexivity|].
  simpl in Hget. injection Hget as Hv.
  unfold relocate in Hv. rewrite first_traversal_unassigned in Hv.
  destruct (first_reference (name v) (fun_identifiers fun_)) as [p|];
    clear - Hv; subst v; split; reflexivity.
Qed.

Lemma captured_bindings_located_witness :
  let v := {| name := js "x"; loc := loc_at 7 30 |} in
  In v (makeArrayFromCapturedBindings no_globals sample_lowered sample_fun)
  /\ exists q,
       name v = name (path_node q)
       /\ loc v =
          match first_reference (name v) (fun_identifiers sample_fun) with
          | Some p => loc (path_node p)
          | None => loc (path_node q)
          end.
Proof.
  intros v.
  assert (H : In v (makeArrayFromCapturedBindings no_globals sample_lowered
                      sample_fun)) by (left; reflexivity).
  split; [exact H|].
  destruct (captured_bindings_located no_globals sample_lowered sample_fun v H)
    as (q & _ & Hn & Hl).
  exists q. split; assumption.
Defined.

(* ================================================================== *)
(** ** The naming resolver: library names, counters, missing file names *)
(* ================================================================== *)

Lemma split_free (sep : N) (s : js_string) :
  free_of sep s -> split sep s = [s].
Proof.
  unfold free_of. induction s as [|c s IH]; simpl; intros H; [reflexivity|].
  destruct (N.eqb c sep) eqn:E.
  - apply N.eqb_eq in E. exfalso. apply H. now left.
  - rewrite IH; [reflexivity|]. intros Hs. apply H. now right.
Qed.

Lemma split_app (sep : N) (s rest : js_string) :
  free_of sep s -> split sep (s ++ sep :: rest) = s :: split sep rest.
Proof.
  unfold free_of. induction s as [|c s IH]; simpl; intros H.
  - now rewrite N.eqb_refl.
  - destruct (N.eqb c sep) eqn:E.
    + apply N.eqb_eq in E. exfalso. apply H. now left.
    + rewrite IH; [reflexivity|]. intros Hs. apply H. now right.
Qed.

(** Splitting what [join] put together gives the segments back. *)
Lemma split_join (sep : N) (segments : list js_string) :
  segments <> [] -> Forall (free_of sep) segments ->
  split sep (join sep segments) = segments.
Proof.
  induction segments as [|s segments IH]; intros Hne H; [congruence|].
  inversion H as [|? ? Hs Hrest]; subst.
  destruct segments as [|s2 segments].
  - simpl. now apply split_free.
  - change (join sep (s :: s2 :: segments))
      with (s ++ sep :: join sep (s2 :: segments)).
    rewrite split_app by exact Hs. f_equal.
    apply IH; [discriminate|exact Hrest].
Qed.

Lemma indexOf_first (x : js_string) (l1 l2 : list js_string) :
  ~ In x l1 -> indexOf x (l1 ++ x :: l2) = Some (List.length l1).
Proof.
  induction l1 as [|y l1 IH]; simpl; intros H.
  - now rewrite js_eqb_refl.
  - destruct (js_eqb y x) eqn:E.
    + apply js_eqb_eq in E. exfalso. apply H. now left.
    + rewrite IH; [reflexivity|]. intros Hx. apply H. now right.
Qed.

Lemma element_after (x : js_string) (l1 l2 : list js_string) :
  element_to_string (l1 ++ x :: l2) (List.length l1 + 1) =
  match l2 with s :: _ => s | [] => js "undefined" end.
Proof.
  unfold element_to_string.
  rewrite nth_error_app2 by lia.
  replace (List.length l1 + 1 - List.length l1)%nat with 1%nat by lia.
  destruct l2; reflexivity.
Qed.

Lemma join_truthy (sep : N) (l1 l2 : list js_string) (x : js_string) :
  truthy x = true -> truthy (join sep (l1 ++ x :: l2)) = true.
Proof.
  intros Hx. destruct l1 as [|s l1]; simpl.
  - destruct x as [|c x]; [discriminate Hx|]. now destruct l2.
  - destruct (l1 ++ x :: l2) as [|y rest] eqn:E.
    + now destruct l1.
    + now destruct s.
Qed.

(** X6.  For a file below [node_modules], the source of the name is the
    path segment that follows the FIRST [node_modules] segment, an
    underscore and the file's base name; when the path ends with
    [node_modules], the text [undefined] stands for the segment. *)
Theorem worklet_source_library (host : Host) (state : ReanimatedPluginPass)
    (before after : list js_string) :
  filename state =
    Some (join slash (before ++ js "node_modules" :: after)) ->
  Forall (free_of slash) (before ++ after) ->
  ~ In (js "node_modules") before ->
  worklet_source host state =
  match after with lib :: _ => lib | [] => js "undefined" end
  ++ js "_"
  ++ basename host (join slash (before ++ js "node_modules" :: after)).
Proof.
  intros Hf Hfree Hfirst. unfold worklet_source. rewrite Hf.
  rewrite join_truthy by reflexivity.
  rewrite split_join.
  - rewrite indexOf_first by exact Hfirst.
    now rewrite element_after.
  - now destruct before.
  - apply Forall_app in Hfree. destruct Hfree as [Hb Ha].
    apply Forall_app. split; [exact Hb|].
    constructor; [|exact Ha].
    unfold free_of, slash. simpl. intuition discriminate.
Qed.

Lemma worklet_source_library_witness :
  let state :=
    {| filename := Some (js "/app/node_modules/lib/node_modules/dep/index.js");
       cwd := js "/app";
       relativeSourceLocation := false;
       omitNativeOnlyData := false;
       workletNumber := 1 |} in
  worklet_source dev_host state = js "lib_index.js".
Proof.
  intros state.
  assert (H := @worklet_source_library dev_host state [[]; js "app"]
                 [js "lib"; js "node_modules"; js "dep"; js "index.js"]
                 eq_refl).
  apply H.
  - repeat constructor; unfold free_of; simpl; intuition discriminate.
  - simpl. intuition discriminate.
Defined.

(** X8.  While the counter stays within 2^53, naming the worklets of a
    file advances it by their number and leaves the rest of the state
    as it was; there is one name per worklet. *)
Theorem name_worklets_state (host : Host) (funs : list WorkletizableFunction)
    (state : ReanimatedPluginPass) :
  (workletNumber state + N.of_nat (List.length funs) <= 2 ^ 53)%N ->
  snd (name_worklets host funs state) =
  {| filename := filename state;
     cwd := cwd state;
     relativeSourceLocation := relativeSourceLocation state;
     omitNativeOnlyData := omitNativeOnlyData state;
     workletNumber := workletNumber state + N.of_nat (List.length funs) |}
  /\ List.length (fst (name_worklets host funs state)) = List.length funs.
Proof.
  revert state; induction funs as [|f funs IH]; intros state Hb.
  - destruct state. simpl. split; [|reflexivity]. f_equal. lia.
  - cbn [name_worklets]. rewrite makeWorkletName_raw.
    assert (Hlt : (workletNumber state < 2 ^ 53)%N)
      by (cbn [List.length] in Hb; lia).
    pose proof (increment_workletNumber_exact state Hlt) as Hn.
    destruct (IH (increment_workletNumber state)) as [E1 E2].
    { rewrite Hn. cbn [List.length] in Hb. lia. }
    destruct (name_worklets host funs (increment_workletNumber state))
      as [names state'].
    cbn [fst snd] in *. split; [|cbn [List.length]; now rewrite E2].
    rewrite E1, Hn. cbn [List.length].
    unfold increment_workletNumber; cbn [filename cwd relativeSourceLocation
                                          omitNativeOnlyData].
    f_equal. lia.
Qed.

Lemma name_worklets_state_witness :
  let funs := [node sample_fun; add_function; node sample_fun] in
  (workletNumber (sample_state false) + N.of_nat (List.length funs)
   <= 2 ^ 53)%N
  /\ workletNumber (snd (name_worklets dev_host funs (sample_state false))) =
     4%N.
Proof.
  intros funs.
  assert (Hb : (workletNumber (sample_state false)
                + N.of_nat (List.length funs) <= 2 ^ 53)%N)
    by (intros H; discriminate H).
  split; [exact Hb|].
  rewrite (proj1 (name_worklets_state dev_host funs (sample_state false) Hb)).
  reflexivity.
Defined.


(* ================================================================== *)
(** ** The factory: when it returns, and what it hoists in development *)
(* ================================================================== *)



Lemma init_data_properties_development (host : Host)
    (state : ReanimatedPluginPass) (filename_ funString : js_string)
    (sourceMapString : option js_string) :
  isRelease host = false ->
  let location :=
    if relativeSourceLocation state
    then relative host (cwd state) filename_ else filename_ in
  let sourceMap :=
    if relativeSourceLocation state
    then option_map (fun m => String_replace host m filename_ location)
           sourceMapString
    else sourceMapString in
  init_data_properties host state filename_ funString sourceMapString =
  [objectProperty (identifierNode (identifier (js "code")))
     (stringLiteral funString) false false;
   objectProperty (identifierNode (identifier (js "location")))
     (stringLiteral location) false false]
  ++ match sourceMap with
     | Some m =>
         if truthy m
         then [objectProperty (identifierNode (identifier (js "sourceMap")))
                 (stringLiteral m) false false]
         else []
     | None => []
     end
  ++ [objectProperty (identifierNode (identifier (js "version")))
        (stringLiteral
           (if shouldMockVersion host then MOCK_VERSION else REAL_VERSION host))
        false false].
Proof.
  intros Hr. unfold init_data_properties. rewrite Hr. cbn [negb].
  destruct (relativeSourceLocation state); cbn zeta;
    destruct sourceMapString as [m|]; cbn [option_map];
    try destruct (truthy _); reflexivity.
Qed.

(** X10.  In development mode, unless [omitNativeOnlyData] is set, a
    call that returns hoists one constant whose object holds, in this
    order, [code], [location], [sourceMap] when there is a non-empty
    source map, and [version].  The location is the file name, or
    [relative(cwd, filename)] under [relativeSourceLocation], in which
    case the file name inside the source map is replaced by it as well;
    the version is [x.y.z] when [REANIMATED_JEST_SHOULD_MOCK_VERSION] is
    ['1'] and the package version otherwise; the code is the text whose
    hash the wrapper assigns to [__workletHash]. *)
Theorem development_metadata (host : Host) (fun_ : NodePath)
    (state : ReanimatedPluginPass) (w : WorkletFactory) :
  makeWorkletFactory host fun_ state = Ok w ->
  isRelease host = false ->
  omitNativeOnlyData state = false ->
  exists filename_ initDataId funString sourceMapString,
    let location :=
      if relativeSourceLocation state
      then relative host (cwd state) filename_ else filename_ in
    let sourceMap :=
      if relativeSourceLocation state
      then option_map (fun m => String_replace host m filename_ location)
             sourceMapString
      else sourceMapString in
    filename state = Some filename_
    /\ insertedBefore w =
       [variableDeclaration "const"
          [variableDeclarator initDataId
             (objectExpression
                ([objectProperty (identifierNode (identifier (js "code")))
                    (stringLiteral funString) false false;
                  objectProperty (identifierNode (identifier (js "location")))
                    (stringLiteral location) false false]
                 ++ match sourceMap with
                    | Some m =>
                        if truthy m
                        then [objectProperty
                                (identifierNode (identifier (js "sourceMap")))
                                (stringLiteral m) false false]
                        else []
                    | None => []
                    end
                 ++ [objectProperty
                       (identifierNode (identifier (js "version")))
                       (stringLiteral
                          (match REANIMATED_JEST_SHOULD_MOCK_VERSION host with
                           | Some v =>
                               if js_eqb v (js "1")
                               then js "x.y.z" else REAL_VERSION host
                           | None => REAL_VERSION host
                           end))
                       false false]))]]
    /\ In (assign_member
              (identifier
                 (fst (makeWorkletName host
                         (removeWorkletDirective (node fun_)) state)))
              "__workletHash" (numericLiteral (hash funString)))
         (wrapper_body (newFun w)).
Proof.
  intros H Hr Ho. apply makeWorkletFactory_Ok_inv in H.
  destruct H as (f & t & a & A & ->).
  destruct A as (Hf & _).
  exists f. eexists. eexists. eexists. cbn zeta.
  split; [exact Hf|]. split.
  - unfold emitted. cbn [insertedBefore]. rewrite Ho. cbn [negb].
    rewrite init_data_properties_development by exact Hr.
    cbn zeta. cbn [relativeSourceLocation cwd increment_workletNumber].
    unfold shouldMockVersion, MOCK_VERSION.
    destruct (REANIMATED_JEST_SHOULD_MOCK_VERSION host) as [v|];
      [destruct (js_eqb v (js "1"))|]; reflexivity.
  - unfold emitted, wrapper_statements. cbn [newFun wrapper_body].
    rewrite Hr, Ho. cbn [negb app]. do 3 right. left.
    reflexivity.
Qed.

Lemma development_metadata_witness :
  makeWorkletFactory dev_host sample_fun (sample_state false) =
  Ok (sample_emitted dev_host false)
  /\ isRelease dev_host = false
  /\ omitNativeOnlyData (sample_state false) = false
  /\ List.length (insertedBefore (sample_emitted dev_host false)) = 1%nat.
Proof.
  assert (H : makeWorkletFactory dev_host sample_fun (sample_state false) =
              Ok (sample_emitted dev_host false))
    by (vm_compute; reflexivity).
  split; [exact H|]. split; [reflexivity|]. split; [reflexivity|].
  destruct (development_metadata dev_host sample_fun (sample_state false)
              H eq_refl eq_refl) as (f & i & s & m & _ & E & _).
  rewrite E. reflexivity.
Defined.
